(** * Article simplifier: readability estimator and sentence rewriting pipeline

    A shallow embedding of [article_simplifier] (TextAnalyzer, Vocabulary,
    SentenceRewriter, Simplifier) and the properties of its specification.

    Modelling conventions.
    - [std::string] is a [list ascii]; string literals are read through the
      coercion [list_ascii_of_string].
    - [<cctype>] classification and case mapping are those of the "C" locale,
      which is the locale of a program that never calls [setlocale]; bytes
      above 127 belong to no class and are left alone by [tolower]/[toupper].
    - [int] counters are integers in [Z]: every counter is bounded by the
      length of the text, so overflow needs more than 2^31 characters.
    - [double] is the kernel's binary64 [float]; arithmetic and comparisons are
      the IEEE 754 ones, without contraction of multiply and subtract.
    - [std::istringstream >> tok] skips white space and reads up to the next
      white space; it fails when only white space is left. *)

From Stdlib Require Import ZArith List Ascii String Bool Lia Floats.
From stdpp Require Import gmap strings.
Import ListNotations.

Local Open Scope string_scope.
Local Open Scope list_scope.
Local Open Scope Z_scope.

(* Decimal literals denote the nearest binary64 value, as in the source. *)
Set Warnings "-inexact-float".

(** ** Strings and characters *)

Coercion list_ascii_of_string : string >-> list.

(** [s.back()] on a non-empty string; the default is never used where the
    source guards the call by a size or emptiness test. *)
Definition back (s : list ascii) : ascii := List.last s "000"%char.

Definition code (c : ascii) : N := N_of_ascii c.

Definition in_range (lo hi c : ascii) : bool :=
  (code lo <=? code c)%N && (code c <=? code hi)%N.

Definition isupper (c : ascii) : bool := in_range "A" "Z" c.
Definition islower (c : ascii) : bool := in_range "a" "z" c.
Definition isalpha (c : ascii) : bool := isupper c || islower c.

(** space, and the controls \t \n \v \f \r (codes 9 to 13) *)
Definition isspace (c : ascii) : bool :=
  Ascii.eqb c " " || ((9 <=? code c)%N && (code c <=? 13)%N).

(** printable, neither alphanumeric nor space: ! to /, : to @, [ to `, { to ~ *)
Definition ispunct (c : ascii) : bool :=
  in_range "!" "/" c || in_range ":" "@" c || in_range "[" "`" c
  || in_range "{" "~" c.

Definition tolower (c : ascii) : ascii :=
  if isupper c then ascii_of_N (code c + 32) else c.

Definition toupper (c : ascii) : ascii :=
  if islower c then ascii_of_N (code c - 32) else c.

(** [std::transform(w.begin(), w.end(), w.begin(), ::tolower)] *)
Definition lowercase (w : list ascii) : list ascii := map tolower w.

Definition str_eqb (a b : list ascii) : bool := bool_decide (a = b).

(** ** Whitespace tokenisation: [while (ss >> tok)] *)

(** [cur] is the token being read; white space closes it. *)
Fixpoint tokens_from (cur s : list ascii) : list (list ascii) :=
  match s with
  | [] => match cur with [] => [] | _ => [cur] end
  | c :: r =>
      if isspace c
      then match cur with
           | [] => tokens_from [] r
           | _ => cur :: tokens_from [] r
           end
      else tokens_from (cur ++ [c]) r
  end.

Definition tokens (s : list ascii) : list (list ascii) := tokens_from [] s.

(** ** TextAnalyzer *)

Module TextAnalyzer.

(** [vowels.find(c) != npos] with [vowels = "aeiouy"] *)
Definition is_vowel (c : ascii) : bool :=
  existsb (Ascii.eqb c) "aeiouy".

(** One iteration of the scan: the state is [(n, lastWasVowel)]. *)
Definition syllable_step (st : Z * bool) (c : ascii) : Z * bool :=
  let '(n, lastWasVowel) := st in
  let v := is_vowel c in
  ((if v && negb lastWasVowel then n + 1 else n), v).

Definition countSyllables (rawWord : list ascii) : Z :=
  let word := lowercase rawWord in
  let n := fst (fold_left syllable_step word (0, false)) in
  let n :=
    if (2 <? Z.of_nat (length word)) && Ascii.eqb (back word) "e"
    then n - 1 else n in
  Z.max 1 n.

(** [calcFlesch]: the constants are the nearest binary64 values, as the
    compiler reads the decimal literals. *)
Definition calcFlesch (wps spw : float) : float :=
  (206.835 - (1.015 * wps) - (84.6 * spw))%float.

Record Metrics : Type := mkMetrics {
  avgWordsPerSentence : float;
  avgSyllablesPerWord : float;
  fleschScore : float;
  cefrEstimate : Z
}.

(** Modelled from the spec: the value of a default-constructed [Metrics]
    ([Metrics m;]). The struct and its member initialisers are declared in the
    header, which is not part of the sources; the spec calls the record
    "zero-valued" with [estimatedLevel = 0]. *)
Definition Metrics_default : Metrics := mkMetrics 0%float 0%float 0%float 0.

Definition is_terminator (c : ascii) : bool :=
  Ascii.eqb c "." || Ascii.eqb c "!" || Ascii.eqb c "?".

(** The segmentation loop of [analyze]; the state is [(sentences, cur)]. *)
Definition segment_step (st : list (list ascii) * list ascii) (c : ascii)
  : list (list ascii) * list ascii :=
  let '(sentences, cur) := st in
  let cur := cur ++ [c] in
  if is_terminator c then (sentences ++ [cur], []) else (sentences, cur).

(** The vector [sentences] when the loop ends; what is left in [cur] is
    not used afterwards. *)
Definition segment (text : list ascii) : list (list ascii) :=
  fst (fold_left segment_step text ([], [])).

(** The inner [while (ss >> tok)] body; the state is [(wc, totalSyllables)]. *)
Definition word_step (st : Z * Z) (tok : list ascii) : Z * Z :=
  let '(wc, totalSyllables) := st in
  let tok := List.filter isalpha tok in
  match tok with
  | [] => (wc, totalSyllables)
  | _ => (wc + 1, totalSyllables + countSyllables tok)
  end.

(** The outer [for (auto& sent : sentences)] body; the state is
    [(totalWords, totalSyllables)]. *)
Definition sentence_step (st : Z * Z) (sent : list ascii) : Z * Z :=
  let '(totalWords, totalSyllables) := st in
  let '(wc, totalSyllables) :=
    fold_left word_step (tokens sent) (0, totalSyllables) in
  (totalWords + wc, totalSyllables).

(** [(double)n] for a non-negative count *)
Definition to_double (n : Z) : float := PrimFloat.of_uint63 (Uint63.of_Z n).

(** The chain of cut-offs at the end of [analyze]. *)
Definition cefr_of_score (f : float) : Z :=
  if (80 <=? f)%float then 1
  else if (65 <=? f)%float then 2
  else if (50 <=? f)%float then 3
  else if (40 <=? f)%float then 4
  else if (25 <=? f)%float then 5
  else 6.

Definition analyze (text : list ascii) : Metrics :=
  let sentences := segment text in
  match sentences with
  | [] => Metrics_default
  | _ =>
      let '(totalWords, totalSyllables) :=
        fold_left sentence_step sentences (0, 0) in
      let wps :=
        (to_double totalWords / to_double (Z.of_nat (length sentences)))%float in
      let spw :=
        if 0 <? totalWords
        then (to_double totalSyllables / to_double totalWords)%float
        else 0%float in
      let f := calcFlesch wps spw in
      mkMetrics wps spw f (cefr_of_score f)
  end.

End TextAnalyzer.

(** Modelled from the spec: the enumeration [CEFRLevel] is declared in the
    header, which is not part of the sources; the code names [A1] and [A2]
    only (the spec's Beginner and Elementary) and treats every level other
    than [A1] alike. *)
Inductive CEFRLevel : Type := A1 | A2.

(** ** Vocabulary *)

Module Vocabulary.

Definition entry (k v : string) : list ascii * list ascii :=
  (list_ascii_of_string k, list_ascii_of_string v).

(** [loadA1]: the map built from the initialiser list. *)
Definition loadA1 : gmap (list ascii) (list ascii) :=
  list_to_map
    [ entry "utilize" "use"; entry "commence" "start";
      entry "terminate" "end"; entry "residence" "home";
      entry "purchase" "buy"; entry "inquire" "ask";
      entry "observe" "see"; entry "obtain" "get";
      entry "assistance" "help"; entry "demonstrate" "show";
      entry "approximately" "about"; entry "sufficient" "enough";
      entry "however" "but"; entry "therefore" "so";
      entry "additionally" "also"; entry "attempt" "try";
      entry "require" "need" ].

(** [loadA2]: [loadA1], then five assignments [wordMap_[k] = v]. *)
Definition loadA2 : gmap (list ascii) (list ascii) :=
  <[ ("previously" : list ascii) := ("before" : list ascii) ]>
  (<[ ("numerous" : list ascii) := ("many" : list ascii) ]>
  (<[ ("complete" : list ascii) := ("finish" : list ascii) ]>
  (<[ ("construct" : list ascii) := ("build" : list ascii) ]>
  (<[ ("facilitate" : list ascii) := ("help" : list ascii) ]> loadA1)))).

(** The constructor: the table [wordMap_] of a vocabulary of level [lvl]. *)
Definition wordMap (lvl : CEFRLevel) : gmap (list ascii) (list ascii) :=
  match lvl with A1 => loadA1 | A2 => loadA2 end.

Definition isSimple (lvl : CEFRLevel) (word : list ascii) : bool :=
  let lower := lowercase word in
  match wordMap lvl !! lower with None => true | Some _ => false end.

Definition getSimplerWord (lvl : CEFRLevel) (word : list ascii) : list ascii :=
  let lower := lowercase word in
  match wordMap lvl !! lower with
  | Some simple => simple
  | None => word
  end.

End Vocabulary.

(** ** SentenceRewriter *)

Module SentenceRewriter.

(** The [while] loop of [swapWords] that moves trailing punctuation from
    [tok] to [punct]; each iteration pops one character, so [length tok]
    iterations are enough. *)
Fixpoint strip_trailing (fuel : nat) (tok punct : list ascii)
  : list ascii * list ascii :=
  match fuel with
  | O => (tok, punct)
  | S fuel' =>
      match tok with
      | [] => (tok, punct)
      | _ =>
          if ispunct (back tok)
          then strip_trailing fuel' (removelast tok) (back tok :: punct)
          else (tok, punct)
      end
  end.

Definition split_punct (tok : list ascii) : list ascii * list ascii :=
  strip_trailing (length tok) tok [].

(** The body of the token loop of [swapWords]; the state is [out]. *)
Definition swap_step (lvl : CEFRLevel) (out tok : list ascii) : list ascii :=
  let '(tok, punct) := split_punct tok in
  out ++ (Vocabulary.getSimplerWord lvl tok ++ punct ++ " ").

Definition swapWords (lvl : CEFRLevel) (s : list ascii) : list ascii :=
  let out := fold_left (swap_step lvl) (tokens s) [] in
  removelast out.

Definition limit_of (lvl : CEFRLevel) : Z :=
  match lvl with A1 => 10 | A2 => 15 end.

Definition is_conjunction (lw : list ascii) : bool :=
  str_eqb lw "and" || str_eqb lw "but" || str_eqb lw "because".

(** The body of the word loop of [trySplit]; the state is
    [(chunks, chunk, count)]. *)
Definition chunk_step (limit : Z)
    (st : list (list ascii) * list ascii * Z) (w : list ascii)
  : list (list ascii) * list ascii * Z :=
  let '(chunks, chunk, count) := st in
  let chunk := chunk ++ (w ++ " ") in
  let count := count + 1 in
  let lw := lowercase w in
  if is_conjunction lw && (Z.quot limit 2 <=? count)
  then (chunks ++ [chunk], [], 0)
  else (chunks, chunk, count).

Definition trySplit (lvl : CEFRLevel) (s : list ascii) : list (list ascii) :=
  let limit := limit_of lvl in
  let words := tokens s in
  if Z.of_nat (length words) <=? limit then [s]
  else
    let '(chunks, chunk, _) := fold_left (chunk_step limit) words ([], [], 0) in
    match chunk with
    | [] => chunks
    | _ => chunks ++ [chunk]
    end.

(** [std::regex_replace] of the pattern [\([^)]*\)] by the empty string:
    every match starts at a '(' that has a ')' somewhere after it and ends at
    the first such ')'; matches are removed from left to right and the rest
    is copied. [inside] says that the scan is within a match. *)
Fixpoint remove_spans (inside : bool) (s : list ascii) : list ascii :=
  match s with
  | [] => []
  | c :: r =>
      if inside
      then (if Ascii.eqb c ")" then remove_spans false r
            else remove_spans true r)
      else if Ascii.eqb c "(" && existsb (Ascii.eqb ")") r
           then remove_spans true r
           else c :: remove_spans false r
  end.

Definition stripParens (lvl : CEFRLevel) (s : list ascii) : list ascii :=
  match lvl with
  | A1 => remove_spans false s
  | A2 => s
  end.

Definition fixPassive (s : list ascii) : list ascii := s.

Definition rewrite (lvl : CEFRLevel) (sentence : list ascii)
  : list (list ascii) :=
  let s := stripParens lvl sentence in
  let s := swapWords lvl s in
  let s := fixPassive s in
  trySplit lvl s.

End SentenceRewriter.

(** ** Simplifier *)

Module Simplifier.

Import TextAnalyzer.

(** The loop of [splitSentences]; the state is [(out, cur)]. *)
Definition split_step (st : list (list ascii) * list ascii) (c : ascii)
  : list (list ascii) * list ascii :=
  let '(out, cur) := st in
  let cur := cur ++ [c] in
  if is_terminator c && negb (bool_decide (cur = []))
  then (out ++ [cur], [])
  else (out, cur).

Definition splitSentences (text : list ascii) : list (list ascii) :=
  let '(out, cur) := fold_left split_step text ([], []) in
  match cur with
  | [] => out
  | _ => out ++ [cur]
  end.

(** [s.find_first_not_of(chars)]: [None] is [npos]. *)
Fixpoint find_first_not_of (chars s : list ascii) : option nat :=
  match s with
  | [] => None
  | c :: r =>
      if existsb (Ascii.eqb c) chars
      then option_map S (find_first_not_of chars r)
      else Some O
  end.

(** The characters of the literal [" \t\n"]. *)
Definition blanks : list ascii := [" "; "009"; "010"]%char.

(** The body of the loop of [rejoin]; the state is [out]. *)
Definition rejoin_step (out p : list ascii) : list ascii :=
  let s := p in
  let s :=
    match find_first_not_of blanks s with
    | Some start => skipn start s
    | None => s
    end in
  match s with
  | [] => out
  | c :: r =>
      let s := toupper c :: r in
      let s := if is_terminator (back s) then s else s ++ ["."%char] in
      out ++ (s ++ " ")
  end.

Definition rejoin (parts : list (list ascii)) : list ascii :=
  fold_left rejoin_step parts [].

Record SimplifiedArticle : Type := mkArticle {
  original : list ascii;
  simplified : list ascii;
  level : CEFRLevel
}.

(** The progress callback, when one is set, is called with [(i + 1, total)]
    after each sentence and returns nothing: it has no part in the result. *)
Definition run (lvl : CEFRLevel) (text : list ascii) : SimplifiedArticle :=
  let sentences := splitSentences text in
  let result :=
    fold_left (fun result s => result ++ SentenceRewriter.rewrite lvl s)
              sentences [] in
  mkArticle text (rejoin result) lvl.

End Simplifier.

Import TextAnalyzer Vocabulary SentenceRewriter Simplifier.

(** ** The pipeline with its progress callback *)

(** The sentence loop of [run] when a callback is set with [setProgress]:
    the state is [(result, calls)], [calls] being the arguments the callback
    has been called with so far; [i] is the loop index. *)
Definition run_step (lvl : CEFRLevel) (sentences : list (list ascii))
    (total : Z) (st : list (list ascii) * list (Z * Z)) (i : nat)
  : list (list ascii) * list (Z * Z) :=
  let '(result, calls) := st in
  let parts := SentenceRewriter.rewrite lvl (nth i sentences []) in
  (result ++ parts, calls ++ [(Z.of_nat i + 1, total)]).

(** [run] with a callback: the article and the calls made, in order. *)
Definition run_notifying (lvl : CEFRLevel) (text : list ascii)
  : SimplifiedArticle * list (Z * Z) :=
  let sentences := splitSentences text in
  let total := Z.of_nat (length sentences) in
  let '(result, calls) :=
    fold_left (run_step lvl sentences total)
              (seq 0 (length sentences)) ([], []) in
  (mkArticle text (rejoin result) lvl, calls).

(** ** CLI *)

Module CLI.

(** The array [labels] of [showMetrics]. *)
Definition labels : list string := ["?"; "A1"; "A2"; "B1"; "B2"; "C1"; "C2"].

(** The index [idx] that [showMetrics] computes from the estimate. *)
Definition label_index (cefrEstimate : Z) : Z :=
  if (1 <=? cefrEstimate) && (cefrEstimate <=? 6) then cefrEstimate else 0.

(** The label that [showMetrics] prints: [labels[idx]]; [None] stands for a
    read outside the array. *)
Definition level_label (m : TextAnalyzer.Metrics) : option string :=
  nth_error labels (Z.to_nat (label_index (TextAnalyzer.cefrEstimate m))).

Definition newline : ascii := "010"%char.

(** The characters that [std::getline] stores in [line] and the input left:
    it reads up to the first newline, which it drops, or to the end. *)
Fixpoint read_line (input : list ascii) : list ascii * list ascii :=
  match input with
  | [] => ([], [])
  | c :: r =>
      if Ascii.eqb c newline then ([], r)
      else let '(line, rest) := read_line r in (c :: line, rest)
  end.

(** [std::getline(std::cin, line)] on a stream in good state: it fails
    ([None]) when the input is exhausted and no character can be read. *)
Definition getline (input : list ascii) : option (list ascii * list ascii) :=
  match input with
  | [] => None
  | _ => Some (read_line input)
  end.

(** The loop of [getArticle]: the state is [article] and the input left.
    Every line read takes at least one character off the input, so [fuel]
    iterations are enough when [fuel] is the length of the input. *)
Fixpoint getArticle_loop (fuel : nat) (article input : list ascii)
  : list ascii * list ascii :=
  match fuel with
  | O => (article, input)
  | S fuel' =>
      match getline input with
      | None => (article, input)
      | Some (line, rest) =>
          if str_eqb line "END" then (article, rest)
          else getArticle_loop fuel' (article ++ (line ++ [newline])) rest
      end
  end.

(** [getArticle]: the article read and the input left for later reads. *)
Definition getArticle (input : list ascii) : list ascii * list ascii :=
  getArticle_loop (length input) [] input.

(** Lines written one after the other, each closed by a newline. *)
Definition unlines (lines : list (list ascii)) : list ascii :=
  concat (map (fun l => l ++ [newline]) lines).

(** A line of an article: no newline in it, and not the end marker. *)
Definition article_line (l : list ascii) : Prop :=
  forallb (fun c => negb (Ascii.eqb c newline)) l = true
  /\ l <> list_ascii_of_string "END".

End CLI.

(** ** Notions of the specification *)

(** How the loop ends on what follows the lines of the article: [added] is
    appended to the article and [rest] is left, whatever the fuel. *)
Definition ends_with (tail added rest : list ascii) : Prop :=
  forall fuel article,
    (length tail <= fuel)%nat ->
    CLI.getArticle_loop fuel article tail = (article ++ added, rest).


(** Position [i] of [w] starts a vowel group: it holds a vowel and the
    position before it, if any, does not. For [i = 0] the flag [prev] says
    whether a vowel precedes the word (it does not, for a whole word). *)
Definition starts_group (prev : bool) (w : list ascii) (i : nat) : bool :=
  is_vowel (nth i w "000"%char)
  && negb (match i with
           | O => prev
           | S j => is_vowel (nth j w "000"%char)
           end).

Definition vowel_group_starts (w : list ascii) : Z :=
  Z.of_nat (length (List.filter (starts_group false w) (seq 0 (length w)))).

(** The silent-e correction of the specification. *)
Definition silent_e (w : list ascii) : Z :=
  if (2 <? Z.of_nat (length w)) && Ascii.eqb (back w) "e" then 1 else 0.

(** The recursive count of group starts behind the scan. *)
Fixpoint starts_after (prev : bool) (w : list ascii) : nat :=
  match w with
  | [] => O
  | c :: r =>
      (if is_vowel c && negb prev then 1 else 0)%nat
      + starts_after (is_vowel c) r
  end.

(** A text without any of the terminators '.', '!', '?'. *)
Definition no_terminator (s : list ascii) : bool :=
  forallb (fun c => negb (is_terminator c)) s.

(** A closed sentence: terminator-free text, then one terminator. *)
Definition closed_sentence (s : list ascii) : Prop :=
  exists body t,
    s = body ++ [t] /\ no_terminator body = true /\ is_terminator t = true.

(** The segmentation scan as a recursion on the text: the sentences closed
    from here on, and the fragment left open at the end. *)
Fixpoint scan_sentences (cur text : list ascii)
  : list (list ascii) * list ascii :=
  match text with
  | [] => ([], cur)
  | c :: r =>
      if is_terminator c
      then let '(ss, t) := scan_sentences [] r in ((cur ++ [c]) :: ss, t)
      else scan_sentences (cur ++ [c]) r
  end.

(** The final element made of what is left over, when something is. *)
Definition trailing {A : Type} (tail : list A) : list (list A) :=
  match tail with [] => [] | _ => [tail] end.

(** A word as the tokeniser yields it: not empty, no white space. *)
Definition no_space (w : list ascii) : bool :=
  forallb (fun c => negb (isspace c)) w.

Definition is_word (w : list ascii) : Prop :=
  w <> [] /\ no_space w = true.

(** The text of a group of words as [trySplit] writes a chunk: every word
    followed by one space. *)
Definition render (ws : list (list ascii)) : list ascii :=
  concat (map (fun w => w ++ " ") ws).

(** Words joined by single spaces. *)
Fixpoint join_words (ws : list (list ascii)) : list ascii :=
  match ws with
  | [] => []
  | w :: r =>
      match r with
      | [] => w
      | _ => w ++ " " ++ join_words r
      end
  end.

(** A group of words that the scan of [trySplit] leaves open: every
    conjunction in it stands at a running count below [limit / 2]. *)
Definition open_group (limit : Z) (g : list (list ascii)) : Prop :=
  forall (k : nat) (w : list ascii),
    nth_error g k = Some w ->
    is_conjunction (lowercase w) = true ->
    Z.of_nat k + 1 < Z.quot limit 2.

(** A group that the scan closes: it ends in a conjunction at a running
    count of at least [limit / 2], and was open until then. *)
Definition closed_group (limit : Z) (g : list (list ascii)) : Prop :=
  exists g0 w,
    g = g0 ++ [w]
    /\ is_conjunction (lowercase w) = true
    /\ Z.quot limit 2 <= Z.of_nat (length g)
    /\ open_group limit g0.

(** A sentence has a parenthesised span: a '(' with a ')' after it. *)
Fixpoint has_span (s : list ascii) : bool :=
  match s with
  | [] => false
  | c :: r =>
      (Ascii.eqb c "(" && existsb (Ascii.eqb ")") r) || has_span r
  end.

(** A token that [swapWords] keeps: stripped of its trailing punctuation
    and lowercased, it is no key of the table. *)
Definition plain_token (lvl : CEFRLevel) (tok : list ascii) : bool :=
  isSimple lvl (fst (split_punct tok)).

(** A sentence without hard word and within the length limit. *)
Definition simple_sentence (lvl : CEFRLevel) (s : list ascii) : bool :=
  forallb (plain_token lvl) (tokens s)
  && (Z.of_nat (length (tokens s)) <=? limit_of lvl).

(** A text all of whose sentences are simple. *)
Definition simple_text (lvl : CEFRLevel) (text : list ascii) : bool :=
  forallb (simple_sentence lvl) (splitSentences text).

(** A text none of whose sentences has a parenthesised span. *)
Definition span_free (text : list ascii) : bool :=
  forallb (fun s => negb (has_span s)) (splitSentences text).

(** A sentence with its white space normalised: its tokens joined by single
    spaces. *)
Definition normalise (s : list ascii) : list ascii := join_words (tokens s).

(** The text ends in an unterminated fragment: it is not empty and its last
    character is no terminator. *)
Definition ends_open (text : list ascii) : bool :=
  match text with
  | [] => false
  | _ => negb (is_terminator (back text))
  end.

(** A chunk made of the blanks that [rejoin] trims only. *)
Definition all_blank (p : list ascii) : bool :=
  forallb (fun c => existsb (Ascii.eqb c) blanks) p.

(** What [swapWords] writes for one token: the replacement of the token
    without its trailing punctuation, then that punctuation. *)
Definition swap_token (lvl : CEFRLevel) (tok : list ascii) : list ascii :=
  let '(t, p) := split_punct tok in
  Vocabulary.getSimplerWord lvl t ++ p.

(** A replacement word that [swapWords] can write in place of a token
    without changing how the text tokenises: not empty, no white space, no
    punctuation at its end. *)
Definition solid_word (v : list ascii) : bool :=
  negb (bool_decide (v = [])) && no_space v && negb (ispunct (back v)).

(** The words that [analyze] counts in a sentence: the tokens with their
    letters only, those without any letter left out. *)
Definition alpha_words (sent : list ascii) : list (list ascii) :=
  List.filter (fun w => negb (bool_decide (w = [])))
              (map (List.filter isalpha) (tokens sent)).

(** The syllables of a list of words, added up. *)
Definition syllable_sum (ws : list (list ascii)) : Z :=
  fold_right Z.add 0 (map countSyllables ws).

(** A string with its first character in upper case: [s[0] = toupper(s[0])]. *)
Definition capitalise (s : list ascii) : list ascii :=
  match s with
  | [] => []
  | c :: r => toupper c :: r
  end.

(** ** Properties of countSyllables *)

Section Syllables.

Lemma syllable_scan w : forall n prev,
  fst (fold_left syllable_step w (n, prev))
  = n + Z.of_nat (starts_after prev w).
Proof.
  induction w as [|c r IH]; intros n prev; cbn [fold_left starts_after].
  - cbn. lia.
  - unfold syllable_step at 2. rewrite IH.
    destruct (is_vowel c && negb prev); lia.
Qed.

Lemma filter_seq_shift (f : nat -> bool) (n : nat) :
  List.filter f (seq 1 n) = map S (List.filter (fun i => f (S i)) (seq 0 n)).
Proof.
  rewrite <- seq_shift.
  induction (seq 0 n) as [|i l IH]; cbn; [reflexivity|].
  rewrite IH. destruct (f (S i)); reflexivity.
Qed.

Lemma starts_after_count w : forall prev,
  starts_after prev w
  = length (List.filter (starts_group prev w) (seq 0 (length w))).
Proof.
  induction w as [|c r IH]; intros prev; [reflexivity|].
  cbn [starts_after length seq List.filter].
  rewrite filter_seq_shift.
  assert (Hhd : starts_group prev (c :: r) 0 = is_vowel c && negb prev)
    by reflexivity.
  rewrite Hhd.
  assert (Htl : List.filter (fun i => starts_group prev (c :: r) (S i))
                       (seq 0 (length r))
                = List.filter (starts_group (is_vowel c) r) (seq 0 (length r))).
  { apply filter_ext. intros [|j]; reflexivity. }
  rewrite Htl, (IH (is_vowel c)).
  destruct (is_vowel c && negb prev); cbn [length]; rewrite ?length_map; lia.
Qed.

End Syllables.

(** C1. For every word [w] (the empty word included), [countSyllables w] is
    the number of vowel-group starts of the lowercased word, minus one when
    the lowercased word is longer than two characters and ends in 'e',
    clamped below at 1. Hence the result is at least 1; "banana" has three
    syllables and "the" has one. *)
Theorem countSyllables_spec :
  (forall w : list ascii,
     countSyllables w
     = Z.max 1 (vowel_group_starts (lowercase w) - silent_e (lowercase w))
     /\ 1 <= countSyllables w)
  /\ countSyllables "banana" = 3
  /\ countSyllables "the" = 1.
Proof.
  split; [|split; reflexivity].
  intros w. split; [|unfold countSyllables; lia].
  unfold countSyllables, vowel_group_starts, silent_e.
  rewrite syllable_scan, starts_after_count.
  destruct ((2 <? Z.of_nat (length (lowercase w)))
            && Ascii.eqb (back (lowercase w)) "e"); f_equal; lia.
Qed.

(** ** Sentence segmentation *)

Section Segmentation.

Lemma segment_fold text : forall ss cur,
  fold_left segment_step text (ss, cur)
  = (ss ++ fst (scan_sentences cur text), snd (scan_sentences cur text)).
Proof.
  induction text as [|c r IH]; intros ss cur; cbn [fold_left scan_sentences].
  - cbn. now rewrite app_nil_r.
  - unfold segment_step at 2.
    destruct (is_terminator c); rewrite IH; [|reflexivity].
    destruct (scan_sentences [] r) as [ss' t]; cbn.
    now rewrite <- app_assoc.
Qed.

Lemma split_step_segment_step st c : split_step st c = segment_step st c.
Proof.
  destruct st as [out cur]; unfold split_step, segment_step.
  rewrite bool_decide_eq_false_2; [|now destruct cur].
  now rewrite andb_true_r.
Qed.

Lemma split_fold text : forall st,
  fold_left split_step text st = fold_left segment_step text st.
Proof.
  induction text as [|c r IH]; intros st; cbn [fold_left]; [reflexivity|].
  now rewrite split_step_segment_step, IH.
Qed.

Lemma no_terminator_app a b :
  no_terminator (a ++ b) = no_terminator a && no_terminator b.
Proof. apply forallb_app. Qed.

Lemma scan_sentences_spec text : forall cur,
  no_terminator cur = true ->
  concat (fst (scan_sentences cur text)) ++ snd (scan_sentences cur text)
  = cur ++ text
  /\ Forall closed_sentence (fst (scan_sentences cur text))
  /\ no_terminator (snd (scan_sentences cur text)) = true.
Proof.
  induction text as [|c r IH]; intros cur Hcur; cbn [scan_sentences].
  - cbn. now rewrite app_nil_r.
  - destruct (is_terminator c) eqn:Hc.
    + destruct (IH [] eq_refl) as (Hcat & Hall & Htail).
      destruct (scan_sentences [] r) as [ss t]; cbn in *.
      repeat split; [|constructor|]; try assumption.
      * rewrite <- !app_assoc. cbn. now rewrite Hcat.
      * now exists cur, c.
    + destruct (IH (cur ++ [c])) as (Hcat & Hall & Htail).
      { rewrite no_terminator_app, Hcur. cbn. now rewrite Hc. }
      rewrite <- app_assoc in Hcat. now repeat split.
Qed.

Lemma scan_sentences_none text : forall cur,
  no_terminator text = true -> fst (scan_sentences cur text) = [].
Proof.
  induction text as [|c r IH]; intros cur H; [reflexivity|].
  cbn in H. apply andb_true_iff in H as [Hc Hr].
  cbn [scan_sentences]. apply negb_true_iff in Hc. rewrite Hc. now apply IH.
Qed.

Lemma scan_sentences_some text : forall cur,
  existsb is_terminator text = true -> fst (scan_sentences cur text) <> [].
Proof.
  induction text as [|c r IH]; intros cur H; [discriminate|].
  cbn [scan_sentences]. cbn in H.
  destruct (is_terminator c).
  - now destruct (scan_sentences [] r).
  - now apply IH.
Qed.

Lemma segment_scan text : segment text = fst (scan_sentences [] text).
Proof. unfold segment. now rewrite segment_fold. Qed.

Lemma splitSentences_scan text :
  splitSentences text
  = fst (scan_sentences [] text) ++ trailing (snd (scan_sentences [] text)).
Proof.
  unfold splitSentences. rewrite split_fold, segment_fold. cbn [app].
  destruct (snd (scan_sentences [] text)); cbn; now rewrite ?app_nil_r.
Qed.

Lemma concat_trailing {A : Type} (ss : list (list A)) (tail : list A) :
  concat (ss ++ trailing tail) = concat ss ++ tail.
Proof.
  rewrite concat_app. destruct tail; cbn; now rewrite ?app_nil_r.
Qed.

End Segmentation.

(** C3. The segmentation of [analyze] and [splitSentences] both close a
    sentence right after a terminator, the terminator included: the sentences
    of [analyze] are closed sentences and, followed by the terminator-free
    tail after the last terminator, make up the text. [analyze] drops a
    non-empty tail, [splitSentences] appends it as a last sentence; on a text
    that ends in a terminator the two segmentations are equal. *)
Theorem segmentation_tail (text : list ascii) :
  (exists tail,
     no_terminator tail = true
     /\ concat (segment text) ++ tail = text
     /\ Forall closed_sentence (segment text)
     /\ splitSentences text = segment text ++ trailing tail
     /\ (tail <> [] -> splitSentences text = segment text ++ [tail]
                       /\ splitSentences text <> segment text))
  /\ (forall pre t, text = pre ++ [t] -> is_terminator t = true ->
        splitSentences text = segment text).
Proof.
  destruct (scan_sentences_spec text [] eq_refl) as (Hcat & Hall & Htail).
  rewrite <- segment_scan in Hcat, Hall.
  pose proof (splitSentences_scan text) as Hsplit.
  rewrite <- segment_scan in Hsplit.
  set (tail := snd (scan_sentences [] text)) in *.
  clearbody tail. split.
  - exists tail. repeat split; try assumption.
    + rewrite Hsplit. now destruct tail.
    + rewrite Hsplit. destruct tail; [contradiction|]. cbn.
      intros Heq. rewrite <- (app_nil_r (segment text)) in Heq at 2.
      apply app_inv_head in Heq. discriminate.
  - intros pre t Htext Ht. rewrite Hsplit.
    destruct tail as [|x tl _] using rev_ind; [apply app_nil_r|].
    exfalso. rewrite Htext, app_assoc in Hcat.
    apply app_inj_tail in Hcat as [_ ->].
    rewrite no_terminator_app in Htail. cbn in Htail.
    rewrite Ht in Htail. now rewrite andb_false_r in Htail.
Qed.

Lemma segmentation_tail_go_now :
  list_ascii_of_string "Go. Now." = "Go. Now" ++ ["."%char]
  /\ is_terminator "." = true
  /\ splitSentences "Go. Now." = segment "Go. Now.".
Proof.
  split; [reflexivity|]. split; [reflexivity|].
  apply (proj2 (segmentation_tail (list_ascii_of_string "Go. Now."))
               (list_ascii_of_string "Go. Now") "."%char);
    reflexivity.
Defined.

(** C9. The segmentation of the pipeline is lossless: the sentences of
    [splitSentences text], concatenated in order, are [text]. *)
Theorem splitSentences_lossless (text : list ascii) :
  concat (splitSentences text) = text.
Proof.
  rewrite splitSentences_scan, concat_trailing.
  apply (scan_sentences_spec text [] eq_refl).
Qed.

(** ** The readability metrics *)

Lemma segment_nonempty text :
  existsb is_terminator text = true -> segment text <> [].
Proof. rewrite segment_scan. apply scan_sentences_some. Qed.

Lemma segment_empty text : no_terminator text = true -> segment text = [].
Proof. rewrite segment_scan. apply scan_sentences_none. Qed.

Lemma cefr_of_score_range f : 1 <= cefr_of_score f <= 6.
Proof.
  unfold cefr_of_score.
  repeat match goal with |- context [if ?b then _ else _] => destruct b end;
    lia.
Qed.

Lemma analyze_early_return text :
  no_terminator text = true -> analyze text = Metrics_default.
Proof. intros H. unfold analyze. now rewrite (segment_empty text H). Qed.

(** C7. On a text without terminator, the empty text among them, [analyze]
    returns the default record at once: both averages and the score are zero
    and the level is 0. No quotient is computed on that path. *)
Theorem analyze_no_terminator (text : list ascii)
    (H : no_terminator text = true) :
  analyze text = Metrics_default
  /\ avgWordsPerSentence (analyze text) = 0%float
  /\ avgSyllablesPerWord (analyze text) = 0%float
  /\ fleschScore (analyze text) = 0%float
  /\ cefrEstimate (analyze text) = 0.
Proof.
  rewrite (analyze_early_return text H). now repeat split.
Qed.

Lemma analyze_no_terminator_empty :
  no_terminator [] = true
  /\ analyze [] = Metrics_default
  /\ avgWordsPerSentence (analyze []) = 0%float
  /\ avgSyllablesPerWord (analyze []) = 0%float
  /\ fleschScore (analyze []) = 0%float
  /\ cefrEstimate (analyze []) = 0.
Proof.
  split; [reflexivity|].
  apply (analyze_no_terminator []). reflexivity.
Defined.

(** The same on a text that has words but no terminator. *)
Example analyze_unterminated :
  analyze "no end in sight" = Metrics_default.
Proof. apply analyze_early_return. reflexivity. Qed.

(** C2 as stated fails on the empty text: the record is the default one, its
    score is not the value of the formula at its averages, and its level is
    not the one the cut-offs give to its score. *)
Lemma analyze_empty_not_flesch :
  fleschScore (analyze [])
  <> (206.835 - 1.015 * avgWordsPerSentence (analyze [])
      - 84.6 * avgSyllablesPerWord (analyze []))%float
  /\ cefrEstimate (analyze []) <> cefr_of_score (fleschScore (analyze [])).
Proof.
  split.
  - intros Heq.
    apply (f_equal (fun x => PrimFloat.eqb x 0)) in Heq.
    vm_compute in Heq. discriminate.
  - vm_compute. discriminate.
Qed.

(** C2, amended. On every text with at least one terminator, [analyze]
    computes the score by the Flesch formula from the two averages of the
    record and the level from the score by the cut-offs, first match first:
    a score that passes the test [>= 80] is level 1, else [>= 65] level 2,
    else [>= 50] level 3, else [>= 40] level 4, else [>= 25] level 5, else
    level 6. On every text the level
    is between 0 and 6. A score of exactly 80 is level 1 and 79.999 is
    level 2. *)
Theorem analyze_flesch_level :
  (forall text : list ascii,
     existsb is_terminator text = true ->
     fleschScore (analyze text)
     = (206.835 - 1.015 * avgWordsPerSentence (analyze text)
        - 84.6 * avgSyllablesPerWord (analyze text))%float
     /\ cefrEstimate (analyze text) = cefr_of_score (fleschScore (analyze text)))
  /\ (forall f : float,
        ((80 <=? f)%float = true -> cefr_of_score f = 1)
        /\ ((80 <=? f)%float = false -> (65 <=? f)%float = true ->
            cefr_of_score f = 2)
        /\ ((80 <=? f)%float = false -> (65 <=? f)%float = false ->
            (50 <=? f)%float = true -> cefr_of_score f = 3)
        /\ ((80 <=? f)%float = false -> (65 <=? f)%float = false ->
            (50 <=? f)%float = false -> (40 <=? f)%float = true ->
            cefr_of_score f = 4)
        /\ ((80 <=? f)%float = false -> (65 <=? f)%float = false ->
            (50 <=? f)%float = false -> (40 <=? f)%float = false ->
            (25 <=? f)%float = true -> cefr_of_score f = 5)
        /\ ((80 <=? f)%float = false -> (65 <=? f)%float = false ->
            (50 <=? f)%float = false -> (40 <=? f)%float = false ->
            (25 <=? f)%float = false -> cefr_of_score f = 6))
  /\ (forall text : list ascii, 0 <= cefrEstimate (analyze text) <= 6)
  /\ cefr_of_score 80 = 1
  /\ cefr_of_score 79.999 = 2.
Proof.
  split; [|split; [|split; [|split; reflexivity]]].
  - intros text H. apply segment_nonempty in H.
    unfold analyze. destruct (segment text) as [|s ss]; [contradiction|].
    destruct (fold_left sentence_step (s :: ss) (0, 0)) as [tw ts].
    cbn. split; reflexivity.
  - intros f. unfold cefr_of_score.
    repeat split; intros;
      repeat match goal with
             | H : ?b = _ |- context [if ?b then _ else _] => rewrite H
             end; try reflexivity.
  - intros text. unfold analyze.
    destruct (segment text) as [|s ss]; [cbn; lia|].
    destruct (fold_left sentence_step (s :: ss) (0, 0)) as [tw ts].
    cbn [cefrEstimate].
    match goal with |- _ <= cefr_of_score ?f <= _ =>
      pose proof (cefr_of_score_range f) end.
    lia.
Qed.

Lemma analyze_flesch_level_cat :
  existsb is_terminator "The cat sat." = true
  /\ fleschScore (analyze "The cat sat.")
     = (206.835 - 1.015 * avgWordsPerSentence (analyze "The cat sat.")
        - 84.6 * avgSyllablesPerWord (analyze "The cat sat."))%float
  /\ cefrEstimate (analyze "The cat sat.")
     = cefr_of_score (fleschScore (analyze "The cat sat.")).
Proof.
  split; [reflexivity|].
  apply (proj1 analyze_flesch_level (list_ascii_of_string "The cat sat.")).
  reflexivity.
Defined.

(** A terminated text on which every stage of [analyze] runs: three words
    of one syllable each in one sentence. *)
Example analyze_cat :
  analyze "The cat sat."
  = mkMetrics 3 1 (206.835 - 1.015 * 3 - 84.6 * 1)%float 1.
Proof. vm_compute. reflexivity. Qed.

(** ** Vocabulary *)

(** C5. [getSimplerWord] looks the lowercased word up: on a key it returns
    the mapped word, otherwise the word itself, casing untouched. At level
    A1, "UTILIZE" gives "use" and "xyz" gives "xyz". *)
Theorem getSimplerWord_spec :
  (forall (lvl : CEFRLevel) (word : list ascii),
     (forall simple : list ascii,
        wordMap lvl !! lowercase word = Some simple ->
        getSimplerWord lvl word = simple)
     /\ (wordMap lvl !! lowercase word = None ->
         getSimplerWord lvl word = word))
  /\ lowercase "UTILIZE" = "utilize"
  /\ getSimplerWord A1 "UTILIZE" = "use"
  /\ getSimplerWord A1 "xyz" = "xyz"
  /\ getSimplerWord A2 "xyz" = "xyz".
Proof.
  split.
  - intros lvl word. unfold getSimplerWord.
    split; [intros simple H | intros H]; now rewrite H.
  - repeat split; vm_compute; reflexivity.
Qed.

Lemma getSimplerWord_spec_purchase :
  wordMap A1 !! lowercase "Purchase" = Some (list_ascii_of_string "buy")
  /\ getSimplerWord A1 "Purchase" = "buy".
Proof.
  split; [vm_compute; reflexivity|].
  apply (proj1 (proj1 getSimplerWord_spec A1
                      (list_ascii_of_string "Purchase"))).
  vm_compute. reflexivity.
Defined.

(** ** Reassembly *)

(** C6 as stated fails: the result is not "Hello world.". *)
Lemma rejoin_hello_not_bare :
  rejoin ["hello world" : list ascii] <> "Hello world.".
Proof. vm_compute. discriminate. Qed.

(** C6, amended. [rejoin] of the one chunk "hello world" is "Hello world."
    followed by one space: first character in upper case, a period appended,
    then the separator that follows every chunk, the last one too. *)
Theorem rejoin_hello :
  rejoin ["hello world" : list ascii] = "Hello world. ".
Proof. vm_compute. reflexivity. Qed.

(** ** Tokens *)

Section Tokens.

Lemma tokens_from_word w : forall cur r,
  no_space w = true -> tokens_from cur (w ++ r) = tokens_from (cur ++ w) r.
Proof.
  induction w as [|c w IH]; intros cur r H; cbn [app].
  - now rewrite app_nil_r.
  - cbn in H. apply andb_true_iff in H as [Hc Hw].
    apply negb_true_iff in Hc. cbn [tokens_from]. rewrite Hc.
    rewrite IH by assumption. now rewrite <- app_assoc.
Qed.

Lemma tokens_from_space cur c r :
  isspace c = true -> cur <> [] -> tokens_from cur (c :: r) = cur :: tokens r.
Proof.
  intros Hc Hcur. cbn [tokens_from]. rewrite Hc. now destruct cur.
Qed.

Lemma tokens_word_space w r :
  is_word w -> tokens (w ++ " " ++ r) = w :: tokens r.
Proof.
  intros [Hne Hw]. unfold tokens at 1.
  rewrite tokens_from_word by assumption. cbn [app].
  now apply tokens_from_space.
Qed.

Lemma tokens_word w : is_word w -> tokens w = [w].
Proof.
  intros [Hne Hw]. unfold tokens. rewrite <- (app_nil_r w) at 1.
  rewrite tokens_from_word by assumption. cbn. now destruct w.
Qed.

Lemma render_cons w ws : render (w :: ws) = w ++ " " ++ render ws.
Proof. unfold render. cbn. now rewrite <- app_assoc. Qed.

Lemma render_app a b : render (a ++ b) = render a ++ render b.
Proof. unfold render. now rewrite map_app, concat_app. Qed.

Lemma render_nil_inv ws : render ws = [] -> ws = [].
Proof.
  destruct ws as [|w ws]; [reflexivity|]. rewrite render_cons.
  intros H. apply app_eq_nil in H as [_ H]. discriminate.
Qed.

Lemma concat_render gs : concat (map render gs) = render (concat gs).
Proof.
  induction gs as [|g gs IH]; [reflexivity|].
  cbn [map concat]. now rewrite render_app, IH.
Qed.

Lemma tokens_render ws : Forall is_word ws ->
  forall r, tokens (render ws ++ r) = ws ++ tokens r.
Proof.
  induction 1 as [|w ws Hw _ IH]; intros r; [reflexivity|].
  rewrite render_cons, <- !app_assoc.
  rewrite tokens_word_space by assumption. cbn. now rewrite IH.
Qed.

Lemma tokens_join_words ws : Forall is_word ws -> tokens (join_words ws) = ws.
Proof.
  induction 1 as [|w ws Hw Hws IH]; [reflexivity|].
  cbn [join_words]. destruct ws as [|w' ws'].
  - now apply tokens_word.
  - rewrite tokens_word_space by assumption. now rewrite IH.
Qed.

Lemma removelast_render ws : removelast (render ws) = join_words ws.
Proof.
  induction ws as [|w ws IH]; [reflexivity|].
  rewrite render_cons. cbn [join_words]. destruct ws as [|w' ws'].
  - cbn [render map concat app]. apply removelast_last.
  - rewrite <- IH.
    change (w ++ " " ++ render (w' :: ws'))
      with (w ++ [" "%char] ++ render (w' :: ws')).
    rewrite !removelast_app; try reflexivity.
    + intros H. apply render_nil_inv in H. discriminate.
    + intros H. apply app_eq_nil in H as [H _]. discriminate.
Qed.

Lemma no_space_app a b : no_space (a ++ b) = no_space a && no_space b.
Proof. apply forallb_app. Qed.

Lemma tokens_from_words s : forall cur,
  no_space cur = true -> Forall is_word (tokens_from cur s).
Proof.
  induction s as [|c r IH]; intros cur Hcur; cbn [tokens_from].
  - destruct cur; constructor; [now split | constructor].
  - destruct (isspace c) eqn:Hc.
    + destruct cur; [now apply IH|].
      constructor; [now split | now apply IH].
    + apply IH. rewrite no_space_app, Hcur. cbn. now rewrite Hc.
Qed.

Lemma tokens_words s : Forall is_word (tokens s).
Proof. now apply tokens_from_words. Qed.

End Tokens.

(** ** Splitting of long sentences *)

Section Splitting.

Variable limit : Z.

Lemma chunk_step_plain chunks chunk count w :
  is_conjunction (lowercase w) = false ->
  chunk_step limit (chunks, chunk, count) w
  = (chunks, chunk ++ (w ++ " "), count + 1).
Proof. intros H. unfold chunk_step. now rewrite H. Qed.

Lemma chunk_fold_plain ws : forall chunks chunk count,
  Forall (fun w => is_conjunction (lowercase w) = false) ws ->
  fold_left (chunk_step limit) ws (chunks, chunk, count)
  = (chunks, chunk ++ render ws, count + Z.of_nat (length ws)).
Proof.
  induction ws as [|w ws IH]; intros chunks chunk count H; cbn [fold_left].
  - cbn. now rewrite app_nil_r, Z.add_0_r.
  - inversion H as [|? ? Hw Hws]; subst.
    rewrite chunk_step_plain, IH by assumption.
    rewrite render_cons, <- !app_assoc. cbn [length]. f_equal. lia.
Qed.

Lemma render_snoc g w : render g ++ (w ++ " ") = render (g ++ [w]).
Proof.
  rewrite render_app. f_equal. unfold render. cbn. now rewrite app_nil_r.
Qed.

Lemma open_group_nil : open_group limit [].
Proof. intros [|k] w H; discriminate. Qed.

Lemma open_group_snoc g w :
  open_group limit g ->
  is_conjunction (lowercase w)
  && (Z.quot limit 2 <=? Z.of_nat (length g) + 1) = false ->
  open_group limit (g ++ [w]).
Proof.
  intros Hg Htest k w' Hk Hconj.
  destruct (Nat.lt_ge_cases k (length g)) as [Hlt | Hge].
  - rewrite nth_error_app1 in Hk by assumption. now apply (Hg k w').
  - rewrite nth_error_app2 in Hk by assumption.
    destruct (k - length g)%nat as [|j] eqn:Hj; cbn in Hk;
      [|destruct j; discriminate].
    injection Hk as ->. rewrite Hconj in Htest. cbn in Htest.
    apply Z.leb_gt in Htest. lia.
Qed.

(** The invariant of the word loop: the closed chunks are closed groups, the
    chunk in progress is an open group, and no word is lost. *)
Lemma chunk_fold ws : forall groups g,
  Forall (closed_group limit) groups ->
  open_group limit g ->
  exists groups' rest,
    fold_left (chunk_step limit) ws
              (map render groups, render g, Z.of_nat (length g))
    = (map render groups', render rest, Z.of_nat (length rest))
    /\ concat groups' ++ rest = concat groups ++ g ++ ws
    /\ Forall (closed_group limit) groups'
    /\ open_group limit rest.
Proof.
  induction ws as [|w ws IH]; intros groups g Hgs Hg; cbn [fold_left].
  - exists groups, g. now rewrite app_nil_r.
  - unfold chunk_step at 2. rewrite render_snoc.
    destruct (is_conjunction (lowercase w)
              && (Z.quot limit 2 <=? Z.of_nat (length g) + 1)) eqn:Htest.
    + apply andb_true_iff in Htest as [Hconj Hcount].
      apply Z.leb_le in Hcount.
      destruct (IH (groups ++ [g ++ [w]]) []) as (gs' & rest & Hf & Hc & Hcl & Hop).
      { apply Forall_app. split; [assumption|]. constructor; [|constructor].
        exists g, w. repeat split; try assumption.
        rewrite length_app. cbn [length]. lia. }
      { apply open_group_nil. }
      exists gs', rest. rewrite map_app in Hf. cbn [map] in Hf.
      repeat split; try assumption.
      rewrite Hc, concat_app. cbn. now rewrite <- !app_assoc.
    + destruct (IH groups (g ++ [w]) Hgs) as (gs' & rest & Hf & Hc & Hcl & Hop).
      { now apply open_group_snoc. }
      exists gs', rest.
      rewrite length_app, Nat2Z.inj_add in Hf. cbn [length] in Hf.
      repeat split; try assumption.
      rewrite Hc. now rewrite <- !app_assoc.
Qed.

End Splitting.

Lemma chunk_step_and chunk :
  chunk_step 10 ([], chunk, 6) "and" = ([chunk ++ "and "], [], 0).
Proof. reflexivity. Qed.

(** What [trySplit] returns on a sentence over the limit. *)
Lemma trySplit_groups lvl s :
  limit_of lvl < Z.of_nat (length (tokens s)) ->
  exists groups rest,
    trySplit lvl s = map render (groups ++ trailing rest)
    /\ concat groups ++ rest = tokens s
    /\ Forall (closed_group (limit_of lvl)) groups
    /\ open_group (limit_of lvl) rest.
Proof.
  intros Hover. unfold trySplit.
  destruct (Z.leb_spec (Z.of_nat (length (tokens s))) (limit_of lvl)); [lia|].
  destruct (chunk_fold (limit_of lvl) (tokens s) [] [])
    as (groups & rest & Hf & Hc & Hcl & Hop);
    [constructor | apply open_group_nil |].
  change (fold_left (chunk_step (limit_of lvl)) (tokens s) ([], [], 0)
          = (map render groups, render rest, Z.of_nat (length rest))) in Hf.
  rewrite Hf. exists groups, rest.
  repeat split; try assumption.
  rewrite map_app. destruct rest as [|w rest]; cbn [trailing map].
  - cbn. now rewrite app_nil_r.
  - rewrite render_cons.
    destruct (w ++ " " ++ render rest) eqn:Heq; [|reflexivity].
    apply app_eq_nil in Heq as [_ Heq]. discriminate.
Qed.

(** C4. A sentence of at most [limit] tokens (10 at A1, 15 at A2) comes back
    alone and unchanged. On a longer sentence the chunks are groups of words,
    each word followed by a space, that partition the tokens in order: every
    group but the remainder ends in a token that lowercases to "and", "but"
    or "because" at a running count of at least [limit / 2], and holds no
    such token at such a count before its end; the remainder, when not
    empty, is the last chunk and holds none. Six words, "and", six words
    at A1 give two chunks, cut after "and". *)
Theorem trySplit_spec :
  (forall lvl s,
     Z.of_nat (length (tokens s)) <= limit_of lvl -> trySplit lvl s = [s])
  /\ (forall lvl s,
        limit_of lvl < Z.of_nat (length (tokens s)) ->
        exists groups rest,
          trySplit lvl s = map render (groups ++ trailing rest)
          /\ concat groups ++ rest = tokens s
          /\ Forall (closed_group (limit_of lvl)) groups
          /\ open_group (limit_of lvl) rest)
  /\ limit_of A1 = 10 /\ limit_of A2 = 15
  /\ trySplit A1 "A A A A A A and B B B B B B"
     = ["A A A A A A and " : list ascii; "B B B B B B " : list ascii]
  /\ (forall s ws1 ws2,
        tokens s = ws1 ++ [list_ascii_of_string "and"] ++ ws2 ->
        length ws1 = 6%nat -> length ws2 = 6%nat ->
        Forall (fun w => is_conjunction (lowercase w) = false) (ws1 ++ ws2) ->
        trySplit A1 s
        = [render (ws1 ++ [list_ascii_of_string "and"]); render ws2]).
Proof.
  split; [|split; [exact trySplit_groups|]].
  - intros lvl s H. unfold trySplit.
    now destruct (Z.leb_spec (Z.of_nat (length (tokens s))) (limit_of lvl));
      [|lia].
  - split; [reflexivity|split; [reflexivity|split]].
    + vm_compute. reflexivity.
    + intros s ws1 ws2 Htok H1 H2 Hplain.
      apply Forall_app in Hplain as [Hp1 Hp2].
      unfold trySplit. rewrite Htok.
      rewrite !length_app, H1, H2.
      change (Z.of_nat (6 + (length [list_ascii_of_string "and"] + 6))
              <=? limit_of A1) with false.
      cbv iota. change (limit_of A1) with 10.
      rewrite fold_left_app, (chunk_fold_plain 10 ws1), H1 by assumption.
      cbn [fold_left app]. change (0 + Z.of_nat 6) with 6.
      rewrite chunk_step_and, (chunk_fold_plain 10 ws2) by assumption.
      rewrite <- render_snoc. cbn [app].
      destruct ws2 as [|w ws2]; [discriminate|].
      rewrite render_cons.
      destruct (w ++ " " ++ render ws2) eqn:Heq; [|reflexivity].
      apply app_eq_nil in Heq as [_ Heq]. discriminate.
Qed.

Lemma trySplit_spec_short :
  Z.of_nat (length (tokens "one two  three.")) <= limit_of A1
  /\ trySplit A1 "one two  three." = ["one two  three." : list ascii].
Proof.
  split; [vm_compute; discriminate|].
  apply (proj1 trySplit_spec A1 (list_ascii_of_string "one two  three.")).
  vm_compute. discriminate.
Defined.

(** C10. Splitting keeps the words: the chunks of [trySplit], put together
    and tokenised on white space, give the tokens of the sentence, in order. *)
Theorem trySplit_tokens (lvl : CEFRLevel) (s : list ascii) :
  tokens (concat (trySplit lvl s)) = tokens s.
Proof.
  destruct (Z.le_gt_cases (Z.of_nat (length (tokens s))) (limit_of lvl))
    as [Hle | Hgt].
  - unfold trySplit.
    destruct (Z.leb_spec (Z.of_nat (length (tokens s))) (limit_of lvl));
      [|lia].
    cbn. now rewrite app_nil_r.
  - destruct (trySplit_groups lvl s Hgt) as (groups & rest & -> & Hc & _).
    rewrite concat_render, concat_trailing, Hc.
    rewrite <- (app_nil_r (render (tokens s))).
    rewrite tokens_render by apply tokens_words.
    apply app_nil_r.
Qed.

(** ** The pipeline on simple text *)

Section SimpleText.

Variable lvl : CEFRLevel.

Lemma strip_trailing_app fuel : forall tok punct,
  fst (strip_trailing fuel tok punct) ++ snd (strip_trailing fuel tok punct)
  = tok ++ punct.
Proof.
  induction fuel as [|fuel IH]; intros tok punct; [reflexivity|].
  cbn [strip_trailing]. destruct tok as [|c tok]; [reflexivity|].
  destruct (ispunct (back (c :: tok))); [|reflexivity].
  rewrite IH. unfold back.
  rewrite (app_removelast_last "000"%char (l := c :: tok)) at 3
    by discriminate.
  now rewrite <- app_assoc.
Qed.

Lemma getSimplerWord_simple w : isSimple lvl w = true -> getSimplerWord lvl w = w.
Proof.
  unfold isSimple, getSimplerWord.
  now destruct (wordMap lvl !! lowercase w).
Qed.

Lemma swap_step_plain out tok :
  plain_token lvl tok = true -> swap_step lvl out tok = out ++ (tok ++ " ").
Proof.
  unfold plain_token, swap_step, split_punct. intros H.
  pose proof (strip_trailing_app (length tok) tok []) as Happ.
  destruct (strip_trailing (length tok) tok []) as [t p]; cbn [fst snd] in *.
  rewrite getSimplerWord_simple by assumption.
  rewrite app_nil_r in Happ. rewrite <- Happ. now rewrite <- (app_assoc t).
Qed.

Lemma swap_fold_plain ws : forall out,
  forallb (plain_token lvl) ws = true ->
  fold_left (swap_step lvl) ws out = out ++ render ws.
Proof.
  induction ws as [|w ws IH]; intros out H; cbn [fold_left].
  - cbn. now rewrite app_nil_r.
  - cbn in H. apply andb_true_iff in H as [Hw Hws].
    rewrite swap_step_plain, IH by assumption.
    now rewrite render_cons, <- !app_assoc.
Qed.

Lemma swapWords_plain s :
  forallb (plain_token lvl) (tokens s) = true ->
  swapWords lvl s = normalise s.
Proof.
  intros H. unfold swapWords, normalise.
  rewrite swap_fold_plain by assumption. cbn [app].
  apply removelast_render.
Qed.

Lemma tokens_normalise s : tokens (normalise s) = tokens s.
Proof. apply tokens_join_words, tokens_words. Qed.

Lemma remove_spans_none s : has_span s = false -> remove_spans false s = s.
Proof.
  induction s as [|c r IH]; [reflexivity|]. cbn [has_span remove_spans].
  intros H. apply orb_false_iff in H as [Hc Hr].
  rewrite Hc. now rewrite IH.
Qed.

Lemma stripParens_none s : has_span s = false -> stripParens lvl s = s.
Proof. destruct lvl; [apply remove_spans_none | reflexivity]. Qed.

Lemma rewrite_simple s :
  simple_sentence lvl s = true -> has_span s = false ->
  SentenceRewriter.rewrite lvl s = [normalise s].
Proof.
  unfold simple_sentence. intros H Hspan.
  apply andb_true_iff in H as [Hplain Hlen].
  unfold SentenceRewriter.rewrite, fixPassive.
  rewrite stripParens_none, swapWords_plain by assumption.
  unfold trySplit. now rewrite tokens_normalise, Hlen.
Qed.

Lemma rewrite_fold_simple ss : forall result,
  forallb (simple_sentence lvl) ss = true ->
  forallb (fun s => negb (has_span s)) ss = true ->
  fold_left (fun result s => result ++ SentenceRewriter.rewrite lvl s)
            ss result
  = result ++ map normalise ss.
Proof.
  induction ss as [|s ss IH]; intros result H1 H2; cbn [fold_left map].
  - now rewrite app_nil_r.
  - cbn in H1, H2.
    apply andb_true_iff in H1 as [Hs Hss].
    apply andb_true_iff in H2 as [Hp Hps].
    apply negb_true_iff in Hp.
    rewrite rewrite_simple, IH by assumption.
    now rewrite <- app_assoc.
Qed.

End SimpleText.

(** C8 as stated fails: "a (b) c." has no hard word and one sentence of
    three tokens, and the pipeline drops "(b)", which reassembly of the
    sentence itself keeps. *)
Lemma run_drops_parenthetical :
  simple_text A1 "a (b) c." = true
  /\ simplified (run A1 "a (b) c.") = "A c. "
  /\ rejoin (splitSentences "a (b) c.") = "A (b) c. "
  /\ simplified (run A1 "a (b) c.") <> rejoin (splitSentences "a (b) c.").
Proof.
  repeat split; try (vm_compute; reflexivity).
  vm_compute. discriminate.
Qed.

(** The pipeline also rewrites white space: runs of it inside a sentence
    become one space, and a sentence of white space alone disappears. *)
Example run_normalises_space :
  simple_text A1 "a  b. " = true
  /\ span_free "a  b. " = true
  /\ simplified (run A1 "a  b. ") = "A b. "
  /\ rejoin (splitSentences "a  b. ") = "A  b.  . ".
Proof. repeat split; vm_compute; reflexivity. Qed.

(** C8, amended. On a text in which no word (trailing punctuation stripped,
    lowercased) is a key of the A1 table, no sentence has more than 10
    tokens and no sentence has a parenthesised span, the simplified text of
    [run] at A1 is the reassembly of the sentences with their white space
    normalised: the tokens of each sentence joined by single spaces. *)
Theorem run_simple_text (text : list ascii)
    (Hsimple : simple_text A1 text = true)
    (Hspan : span_free text = true) :
  simplified (run A1 text) = rejoin (map normalise (splitSentences text)).
Proof.
  unfold run. cbn [simplified].
  now rewrite rewrite_fold_simple.
Qed.

Lemma run_simple_text_cat :
  simple_text A1 "The cat sat.  The dog ran" = true
  /\ span_free "The cat sat.  The dog ran" = true
  /\ simplified (run A1 "The cat sat.  The dog ran")
     = rejoin (map normalise (splitSentences "The cat sat.  The dog ran")).
Proof.
  split; [reflexivity|]. split; [reflexivity|].
  apply (run_simple_text (list_ascii_of_string "The cat sat.  The dog ran"));
    reflexivity.
Defined.

(** The pipeline on a text with hard words, a parenthetical and a sentence
    over the limit: words are swapped, the parenthetical goes, and the long
    sentence is cut after "because"; a chunk cut by [trySplit] ends in a
    space, so [rejoin] closes it with a period of its own. *)
Example run_end_to_end :
  simplified
    (run A1 "Please utilize the (old) residence. The dog ate a big bone because it was hungry and happy.")
  = "Please use the home. The dog ate a big bone because . It was hungry and happy. . ".
Proof. vm_compute. reflexivity. Qed.

(** * Further properties of the code *)

(** ** The vocabulary tables *)

Section Tables.

Variable lvl : CEFRLevel.

(** Every entry of the table maps to a word that is no key itself. *)
Lemma table_values_simple :
  forallb (fun kv => isSimple lvl (snd kv)) (map_to_list (wordMap lvl)) = true.
Proof. destruct lvl; vm_compute; reflexivity. Qed.

Lemma lookup_value_simple k v :
  wordMap lvl !! k = Some v -> isSimple lvl v = true.
Proof.
  intros H. apply elem_of_map_to_list, list_elem_of_In in H.
  pose proof table_values_simple as Hall.
  rewrite forallb_forall in Hall. exact (Hall (k, v) H).
Qed.

End Tables.

Lemma loadA1_subseteq_loadA2 k v :
  loadA1 !! k = Some v -> loadA2 !! k = Some v.
Proof.
  intros H. unfold loadA2.
  rewrite !lookup_insert_ne; [assumption|..];
    intros <-; vm_compute in H; discriminate.
Qed.

(** X1. The table of A2 extends the table of A1: the 17 entries of A1 are
    entries of A2 unchanged, A2 has 22, the five more being "facilitate",
    "construct", "complete", "numerous" and "previously". So a word simple
    at A2 is simple at A1, and a word replaced at A1 gets the same
    replacement at A2. *)
Theorem vocabulary_layered :
  (forall k v : list ascii,
     wordMap A1 !! k = Some v -> wordMap A2 !! k = Some v)
  /\ size (wordMap A1) = 17%nat
  /\ size (wordMap A2) = 22%nat
  /\ (forall k : list ascii,
        wordMap A1 !! k = None ->
        is_Some (wordMap A2 !! k) ->
        In k [list_ascii_of_string "facilitate";
              list_ascii_of_string "construct";
              list_ascii_of_string "complete";
              list_ascii_of_string "numerous";
              list_ascii_of_string "previously"])
  /\ (forall w : list ascii, isSimple A2 w = true -> isSimple A1 w = true)
  /\ (forall w : list ascii,
        isSimple A1 w = false -> getSimplerWord A2 w = getSimplerWord A1 w).
Proof.
  split; [exact loadA1_subseteq_loadA2|].
  split; [vm_compute; reflexivity|]. split; [vm_compute; reflexivity|].
  split; [|split].
  - intros k Hnone [v Hv]. cbn [wordMap] in *. unfold loadA2 in Hv.
    repeat match type of Hv with
           | <[ ?i := _ ]> _ !! _ = Some _ =>
               apply lookup_insert_Some in Hv as [[<- _] | [_ Hv]];
               [cbn; tauto|]
           end.
    congruence.
  - intros w. unfold isSimple. cbn [wordMap].
    destruct (loadA1 !! lowercase w) as [v|] eqn:H1; [|reflexivity].
    now rewrite (loadA1_subseteq_loadA2 _ _ H1).
  - intros w. unfold isSimple, getSimplerWord. cbn [wordMap].
    destruct (loadA1 !! lowercase w) as [v|] eqn:H1; [|discriminate].
    now rewrite (loadA1_subseteq_loadA2 _ _ H1).
Qed.

Lemma getSimplerWord_result_simple lvl w :
  isSimple lvl (getSimplerWord lvl w) = true.
Proof.
  unfold getSimplerWord.
  destruct (wordMap lvl !! lowercase w) as [v|] eqn:Hw.
  - exact (lookup_value_simple lvl _ _ Hw).
  - unfold isSimple. now rewrite Hw.
Qed.

(** X2. What [getSimplerWord] returns is a simple word at the same level: no
    replacement is itself a key, so a second call changes nothing. *)
Theorem getSimplerWord_settles (lvl : CEFRLevel) (w : list ascii) :
  isSimple lvl (getSimplerWord lvl w) = true
  /\ getSimplerWord lvl (getSimplerWord lvl w) = getSimplerWord lvl w.
Proof.
  split; [apply getSimplerWord_result_simple|].
  apply getSimplerWord_simple, getSimplerWord_result_simple.
Qed.

(** X3. [isSimple] says exactly whether [getSimplerWord] leaves the word
    alone: no key, in any casing, is mapped to itself. *)
Theorem isSimple_iff_unchanged (lvl : CEFRLevel) (w : list ascii) :
  isSimple lvl w = true <-> getSimplerWord lvl w = w.
Proof.
  split; [apply getSimplerWord_simple|].
  intros H. rewrite <- H. apply getSimplerWord_result_simple.
Qed.

(** ** Sentences *)

Section SentenceCount.

Lemma scan_sentences_length text : forall cur,
  length (fst (scan_sentences cur text))
  = length (List.filter is_terminator text).
Proof.
  induction text as [|c r IH]; intros cur; [reflexivity|].
  cbn [scan_sentences List.filter]. destruct (is_terminator c).
  - specialize (IH []). destruct (scan_sentences [] r); cbn in *. now f_equal.
  - apply IH.
Qed.

Lemma back_cons c c' r : back (c :: c' :: r) = back (c' :: r).
Proof. reflexivity. Qed.

Lemma scan_sentences_tail text : forall cur,
  length (trailing (snd (scan_sentences cur text)))
  = match text with
    | [] => length (trailing cur)
    | _ => if ends_open text then 1%nat else 0%nat
    end.
Proof.
  induction text as [|c r IH]; intros cur; [reflexivity|].
  cbn [scan_sentences]. unfold ends_open.
  destruct (is_terminator c) eqn:Hc.
  - specialize (IH []). destruct (scan_sentences [] r) as [ss t] eqn:Hs.
    cbn [snd] in *. rewrite IH. destruct r as [|c' r'].
    + cbn. now rewrite Hc.
    + now rewrite back_cons.
  - rewrite IH. destruct r as [|c' r'].
    + cbn [back List.last]. rewrite Hc. now destruct cur.
    + now rewrite back_cons.
Qed.

End SentenceCount.

(** X4. Every terminator character closes a sentence of its own: [analyze]
    counts as many sentences as the text has terminators (an ellipsis makes
    three), and [splitSentences] one more when the text ends in an
    unterminated fragment. *)
Theorem sentence_count (text : list ascii) :
  length (segment text) = length (List.filter is_terminator text)
  /\ length (splitSentences text)
     = (length (List.filter is_terminator text)
        + (if ends_open text then 1 else 0))%nat.
Proof.
  split.
  - rewrite segment_scan. apply scan_sentences_length.
  - rewrite splitSentences_scan, length_app, scan_sentences_length.
    rewrite scan_sentences_tail. now destruct text.
Qed.

Lemma split_fold_terminated pre t :
  is_terminator t = true ->
  fold_left split_step (pre ++ [t]) ([], [])
  = (splitSentences (pre ++ [t]), []).
Proof.
  intros Ht. unfold splitSentences.
  rewrite fold_left_app. cbn [fold_left].
  destruct (fold_left split_step pre ([], [])) as [out cur].
  rewrite split_step_segment_step. unfold segment_step. now rewrite Ht.
Qed.

Lemma splitSentences_terminated pre t text :
  is_terminator t = true ->
  splitSentences ((pre ++ [t]) ++ text)
  = splitSentences (pre ++ [t]) ++ splitSentences text.
Proof.
  intros Ht. unfold splitSentences at 1.
  rewrite fold_left_app, (split_fold_terminated pre t Ht).
  rewrite split_fold, segment_fold, (splitSentences_scan text).
  destruct (snd (scan_sentences [] text)); cbn [trailing];
    now rewrite ?app_nil_r, ?app_assoc.
Qed.

(** X5. A text that ends in a terminator is segmented on its own: the
    sentences of such a text followed by another are the sentences of the
    first, then those of the second. *)
Theorem splitSentences_app (pre : list ascii) (t : ascii) (text : list ascii)
    (Ht : is_terminator t = true) :
  splitSentences ((pre ++ [t]) ++ text)
  = splitSentences (pre ++ [t]) ++ splitSentences text.
Proof. now apply splitSentences_terminated. Qed.

Lemma splitSentences_app_hi :
  is_terminator "!" = true
  /\ splitSentences (("Hi" ++ ["!"%char]) ++ " You there")
     = splitSentences ("Hi" ++ ["!"%char]) ++ splitSentences " You there".
Proof.
  split; [reflexivity|].
  apply (splitSentences_app (list_ascii_of_string "Hi") "!"%char
                            (list_ascii_of_string " You there")).
  reflexivity.
Defined.

(** ** Reassembly and the pipeline *)

Section Rejoin.

Lemma rejoin_step_app out p : rejoin_step out p = out ++ rejoin_step [] p.
Proof.
  unfold rejoin_step.
  destruct (match find_first_not_of blanks p with
            | Some start => skipn start p
            | None => p
            end); [now rewrite app_nil_r | reflexivity].
Qed.

Lemma rejoin_fold parts : forall out,
  fold_left rejoin_step parts out = out ++ rejoin parts.
Proof.
  unfold rejoin. induction parts as [|p ps IH]; intros out; cbn [fold_left].
  - now rewrite app_nil_r.
  - rewrite IH, (IH (rejoin_step [] p)), rejoin_step_app.
    now rewrite app_assoc.
Qed.

Lemma rejoin_cons p ps : rejoin (p :: ps) = rejoin_step [] p ++ rejoin ps.
Proof. unfold rejoin at 1. cbn [fold_left]. apply rejoin_fold. Qed.

Lemma rejoin_app_aux a b : rejoin (a ++ b) = rejoin a ++ rejoin b.
Proof.
  unfold rejoin at 1. rewrite fold_left_app.
  fold (rejoin a). apply rejoin_fold.
Qed.

Lemma find_first_not_of_skipn chars s start :
  find_first_not_of chars s = Some start ->
  exists c r, skipn start s = c :: r /\ existsb (Ascii.eqb c) chars = false.
Proof.
  revert start. induction s as [|c r IH]; intros start H; [discriminate|].
  cbn [find_first_not_of] in H.
  destruct (existsb (Ascii.eqb c) chars) eqn:Hc.
  - destruct (find_first_not_of chars r) as [n|]; [|discriminate].
    injection H as <-. cbn [skipn]. now apply IH.
  - injection H as <-. now exists c, r.
Qed.

Lemma find_first_not_of_none chars s :
  find_first_not_of chars s = None
  <-> forallb (fun c => existsb (Ascii.eqb c) chars) s = true.
Proof.
  induction s as [|c r IH]; [easy|]. cbn [find_first_not_of forallb].
  destruct (existsb (Ascii.eqb c) chars); cbn [andb].
  - rewrite <- IH. now destruct (find_first_not_of chars r).
  - easy.
Qed.

Lemma back_snoc l c : back (l ++ [c]) = c.
Proof. unfold back. apply last_last. Qed.

Lemma list_back_split (l : list ascii) :
  l <> [] -> l = removelast l ++ [back l].
Proof. apply app_removelast_last. Qed.

(** A chunk that is not empty yields text that ends in a terminator and a
    space. *)
Lemma rejoin_step_end p :
  p <> [] ->
  exists body t,
    rejoin_step [] p = body ++ [t; " "%char] /\ is_terminator t = true.
Proof.
  intros Hp. unfold rejoin_step.
  assert (Hs : exists c r,
             match find_first_not_of blanks p with
             | Some start => skipn start p
             | None => p
             end = c :: r).
  { destruct (find_first_not_of blanks p) as [start|] eqn:Hf.
    - destruct (find_first_not_of_skipn _ _ _ Hf) as (c & r & -> & _).
      now exists c, r.
    - destruct p as [|c r]; [contradiction|]. now exists c, r. }
  destruct Hs as (c & r & ->). cbn [app].
  destruct (is_terminator (back (toupper c :: r))) eqn:Hb.
  - exists (removelast (toupper c :: r)), (back (toupper c :: r)).
    split; [|assumption].
    rewrite (list_back_split (toupper c :: r)) at 1 by discriminate.
    now rewrite <- app_assoc.
  - exists (toupper c :: r), "."%char. split; [|reflexivity].
    cbn. now rewrite <- app_assoc.
Qed.

Lemma rejoin_step_nil_inv p : rejoin_step [] p = [] -> p = [].
Proof.
  intros H. destruct p as [|c r]; [reflexivity|].
  destruct (rejoin_step_end (c :: r)) as (body & t & Heq & _); [discriminate|].
  rewrite H in Heq. now destruct body.
Qed.

End Rejoin.

(** X6. [rejoin] works chunk by chunk: the text of two chunk sequences one
    after the other is the text of the first followed by the text of the
    second. *)
Theorem rejoin_app (a b : list (list ascii)) :
  rejoin (a ++ b) = rejoin a ++ rejoin b.
Proof. apply rejoin_app_aux. Qed.

Lemma rejoin_ends (parts : list (list ascii)) :
  (rejoin parts = [] <-> Forall (fun p => p = []) parts)
  /\ (rejoin parts <> [] ->
      exists body t,
        rejoin parts = body ++ [t; " "%char] /\ is_terminator t = true).
Proof.
  induction parts as [|p ps [IHnil IHend]] using rev_ind.
  - split; [split; [constructor | reflexivity] | contradiction].
  - rewrite rejoin_app_aux.
    assert (Hone : rejoin [p] = rejoin_step [] p) by reflexivity.
    rewrite Hone. destruct p as [|c r].
    + cbn [rejoin_step find_first_not_of]. rewrite app_nil_r. split.
      * rewrite IHnil, Forall_app. split; [intros H; split; [assumption|]|tauto].
        now constructor.
      * exact IHend.
    + destruct (rejoin_step_end (c :: r)) as (body & t & Heq & Ht);
        [discriminate|].
      rewrite Heq. split.
      * split.
        -- intros H. apply app_eq_nil in H as [_ H]. now destruct body.
        -- intros H. apply Forall_app in H as [_ H].
           inversion H; discriminate.
      * intros _. exists (rejoin ps ++ body), t.
        split; [now rewrite <- app_assoc | assumption].
Qed.

(** X7. [rejoin] skips the empty chunks and no other: its text is empty
    exactly when every chunk is, and a text that is not empty ends in a
    terminator followed by one space. *)
Theorem rejoin_end (parts : list (list ascii)) :
  (rejoin parts = [] <-> Forall (fun p => p = []) parts)
  /\ (rejoin parts <> [] ->
      exists body t,
        rejoin parts = body ++ [t; " "%char] /\ is_terminator t = true).
Proof. apply rejoin_ends. Qed.

(** X8. A chunk made of blanks only (space, tab, newline) is neither trimmed
    nor skipped: it comes out as it is, followed by a period and a space. *)
Theorem rejoin_blank_chunk (p : list ascii)
    (Hne : p <> []) (Hblank : all_blank p = true) :
  rejoin [p] = p ++ ". ".
Proof.
  change (rejoin [p]) with (rejoin_step [] p). unfold rejoin_step.
  apply find_first_not_of_none in Hblank as Hnone. rewrite Hnone.
  destruct p as [|c r]; [contradiction|]. cbn [app].
  assert (Hin : forall x, In x (c :: r) -> In x blanks).
  { intros x Hx. unfold all_blank in Hblank.
    rewrite forallb_forall in Hblank. specialize (Hblank x Hx).
    apply existsb_exists in Hblank as (y & Hy & Heq).
    apply Ascii.eqb_eq in Heq. now subst. }
  assert (Hfix : forall x, In x blanks ->
                 toupper x = x /\ is_terminator x = false).
  { intros x Hx. cbn in Hx.
    destruct Hx as [<- | [<- | [<- | []]]]; split; reflexivity. }
  assert (Hup : toupper c = c) by now apply Hfix, Hin; left.
  rewrite Hup.
  assert (Hback : is_terminator (back (c :: r)) = false).
  { apply Hfix, Hin.
    rewrite (list_back_split (c :: r)) at 2 by discriminate.
    apply in_or_app. right. now left. }
  rewrite Hback. cbn. now rewrite <- app_assoc.
Qed.

Lemma rejoin_blank_chunk_spaces :
  list_ascii_of_string "  " <> []
  /\ all_blank "  " = true
  /\ rejoin ["  " : list ascii] = "  " ++ ". ".
Proof.
  split; [discriminate|]. split; [reflexivity|].
  apply (rejoin_blank_chunk (list_ascii_of_string "  "));
    [discriminate | reflexivity].
Defined.

Lemma run_fold lvl ss : forall result,
  fold_left (fun result s => result ++ SentenceRewriter.rewrite lvl s)
            ss result
  = result ++ concat (map (SentenceRewriter.rewrite lvl) ss).
Proof.
  induction ss as [|s ss IH]; intros result; cbn [fold_left map concat].
  - now rewrite app_nil_r.
  - now rewrite IH, app_assoc.
Qed.

Lemma rejoin_concat (chunks : list (list (list ascii))) :
  rejoin (concat chunks) = concat (map rejoin chunks).
Proof.
  induction chunks as [|c cs IH]; [reflexivity|].
  cbn [concat map]. now rewrite rejoin_app_aux, IH.
Qed.

Lemma run_simplified lvl text :
  simplified (run lvl text)
  = concat (map (fun s => rejoin (SentenceRewriter.rewrite lvl s))
                (splitSentences text)).
Proof.
  unfold run. cbn [simplified]. rewrite run_fold. cbn [app].
  now rewrite rejoin_concat, map_map.
Qed.

(** X9. The pipeline works sentence by sentence: the simplified text is the
    concatenation, in order, of the reassembled rewriting of each sentence
    of [splitSentences]; the original text and the level are handed back
    unchanged. *)
Theorem run_sentence_local (lvl : CEFRLevel) (text : list ascii) :
  simplified (run lvl text)
  = concat (map (fun s => rejoin (SentenceRewriter.rewrite lvl s))
                (splitSentences text))
  /\ original (run lvl text) = text
  /\ level (run lvl text) = lvl.
Proof. split; [apply run_simplified | now split]. Qed.

(** X10. Simplifying a text that ends in a terminator followed by a second
    text gives the simplified first text followed by the simplified second
    one: what follows a terminator has no effect on what comes before. *)
Theorem run_app (lvl : CEFRLevel) (pre : list ascii) (t : ascii)
    (text : list ascii) (Ht : is_terminator t = true) :
  simplified (run lvl ((pre ++ [t]) ++ text))
  = simplified (run lvl (pre ++ [t])) ++ simplified (run lvl text).
Proof.
  rewrite !run_simplified.
  rewrite (splitSentences_terminated pre t text Ht).
  now rewrite map_app, concat_app.
Qed.

Lemma run_app_cat :
  is_terminator "." = true
  /\ simplified (run A1 (("The cat sat" ++ ["."%char]) ++ " It ran"))
     = simplified (run A1 ("The cat sat" ++ ["."%char]))
       ++ simplified (run A1 " It ran").
Proof.
  split; [reflexivity|].
  apply (run_app A1 (list_ascii_of_string "The cat sat") "."%char
                 (list_ascii_of_string " It ran")).
  reflexivity.
Defined.

(** ** Parenthesised spans *)

Section Spans.

Lemma remove_spans_exists (P : ascii -> bool) s : forall inside,
  existsb P (remove_spans inside s) = true -> existsb P s = true.
Proof.
  induction s as [|c r IH]; intros inside H; [assumption|].
  cbn [remove_spans] in H. cbn [existsb].
  destruct inside.
  - destruct (Ascii.eqb c ")"); apply IH in H; rewrite H; apply orb_true_r.
  - destruct (Ascii.eqb c "(" && existsb (Ascii.eqb ")") r).
    + apply IH in H. rewrite H. apply orb_true_r.
    + cbn [existsb] in H. apply orb_true_iff in H as [H | H].
      * now rewrite H.
      * apply IH in H. rewrite H. apply orb_true_r.
Qed.

Lemma remove_spans_clean s : forall inside,
  has_span (remove_spans inside s) = false.
Proof.
  induction s as [|c r IH]; intros inside; [reflexivity|].
  cbn [remove_spans]. destruct inside.
  - destruct (Ascii.eqb c ")"); apply IH.
  - destruct (Ascii.eqb c "(" && existsb (Ascii.eqb ")") r) eqn:Htest;
      [apply IH|].
    cbn [has_span]. rewrite IH, orb_false_r.
    destruct (Ascii.eqb c "("); [|reflexivity]. cbn [andb] in *.
    destruct (existsb (Ascii.eqb ")") (remove_spans false r)) eqn:He;
      [|reflexivity].
    apply remove_spans_exists in He. congruence.
Qed.

Lemma remove_spans_length s : forall inside,
  (length (remove_spans inside s) <= length s)%nat.
Proof.
  induction s as [|c r IH]; intros inside; [reflexivity|].
  cbn [remove_spans length]. destruct inside.
  - destruct (Ascii.eqb c ")");
      [specialize (IH false) | specialize (IH true)]; lia.
  - destruct (Ascii.eqb c "(" && existsb (Ascii.eqb ")") r).
    + specialize (IH true). lia.
    + cbn [length]. specialize (IH false). lia.
Qed.

Lemma remove_spans_shorter s :
  has_span s = true -> (length (remove_spans false s) < length s)%nat.
Proof.
  induction s as [|c r IH]; [discriminate|].
  cbn [has_span remove_spans length]. intros H.
  destruct (Ascii.eqb c "(" && existsb (Ascii.eqb ")") r).
  - pose proof (remove_spans_length r true). lia.
  - cbn [orb] in H. cbn [length]. specialize (IH H). lia.
Qed.

End Spans.

(** X11. At A1 [stripParens] leaves no parenthesised span (no '(' with a ')'
    after it), so stripping again changes nothing; it never makes a
    sentence longer, and it returns the sentence itself exactly when the
    sentence has no such span. At A2 it returns every sentence as it is. *)
Theorem stripParens_spans (s : list ascii) :
  has_span (stripParens A1 s) = false
  /\ (forall lvl, stripParens lvl (stripParens lvl s) = stripParens lvl s)
  /\ (forall lvl, (length (stripParens lvl s) <= length s)%nat)
  /\ (stripParens A1 s = s <-> has_span s = false)
  /\ stripParens A2 s = s.
Proof.
  split; [apply remove_spans_clean|].
  split; [|split; [|split; [|reflexivity]]].
  - intros [|]; [|reflexivity]. cbn [stripParens].
    apply remove_spans_none, remove_spans_clean.
  - intros [|]; cbn [stripParens]; [apply remove_spans_length | reflexivity].
  - split; [|apply remove_spans_none].
    cbn [stripParens]. intros Heq.
    destruct (has_span s) eqn:Hs; [|reflexivity].
    apply remove_spans_shorter in Hs. rewrite Heq in Hs. lia.
Qed.

(** ** Word swapping *)

Section Punctuation.

Lemma length_removelast_cons (c : ascii) tok :
  length (removelast (c :: tok)) = length tok.
Proof.
  pose proof (app_removelast_last "000"%char (l := c :: tok)) as H.
  specialize (H ltac:(discriminate)).
  apply (f_equal (@length ascii)) in H. rewrite length_app in H.
  cbn [length] in H. lia.
Qed.

(** The invariant of the stripping loop. *)
Lemma strip_trailing_spec fuel : forall tok punct,
  (length tok <= fuel)%nat ->
  forallb ispunct punct = true ->
  let r := strip_trailing fuel tok punct in
  fst r ++ snd r = tok ++ punct
  /\ forallb ispunct (snd r) = true
  /\ (fst r = [] \/ ispunct (back (fst r)) = false).
Proof.
  induction fuel as [|fuel IH]; intros tok punct Hlen Hp.
  - destruct tok; [|cbn in Hlen; lia]. cbn. auto.
  - cbn [strip_trailing]. destruct tok as [|c tok]; [cbn; auto|].
    destruct (ispunct (back (c :: tok))) eqn:Hb; [|cbn; auto].
    destruct (IH (removelast (c :: tok)) (back (c :: tok) :: punct))
      as (Happ & Hall & Hend).
    + rewrite length_removelast_cons. cbn in Hlen. lia.
    + cbn [forallb]. now rewrite Hb, Hp.
    + cbv zeta. repeat split; try assumption.
      rewrite Happ.
      rewrite (app_removelast_last "000"%char (l := c :: tok)) at 3
        by discriminate.
      now rewrite <- app_assoc.
Qed.

Lemma strip_trailing_stop fuel t q :
  t = [] \/ ispunct (back t) = false -> strip_trailing fuel t q = (t, q).
Proof.
  intros H. destruct fuel as [|fuel]; [reflexivity|].
  cbn [strip_trailing]. destruct t as [|c t]; [reflexivity|].
  destruct H as [H | H]; [discriminate | now rewrite H].
Qed.

Lemma strip_trailing_suffix t p : forall fuel q,
  forallb ispunct p = true ->
  (length (t ++ p) <= fuel)%nat ->
  strip_trailing fuel (t ++ p) q
  = strip_trailing (fuel - length p) t (p ++ q).
Proof.
  induction p as [|x p IH] using rev_ind; intros fuel q Hp Hlen.
  - now rewrite app_nil_r, Nat.sub_0_r.
  - rewrite forallb_app in Hp. apply andb_true_iff in Hp as [Hp Hx].
    cbn in Hx. rewrite andb_true_r in Hx.
    rewrite !length_app in Hlen. cbn [length] in Hlen.
    destruct fuel as [|fuel]; [lia|].
    cbn [strip_trailing]. rewrite app_assoc.
    destruct ((t ++ p) ++ [x]) as [|c l] eqn:Heq;
      [now destruct (t ++ p)|].
    rewrite <- Heq. rewrite back_snoc, Hx, removelast_last.
    rewrite IH by (rewrite ?length_app; try assumption; lia).
    rewrite length_app. cbn [length].
    replace (S fuel - (length p + 1))%nat with (fuel - length p)%nat by lia.
    now rewrite <- app_assoc.
Qed.

Lemma split_punct_unique t p :
  forallb ispunct p = true ->
  t = [] \/ ispunct (back t) = false ->
  split_punct (t ++ p) = (t, p).
Proof.
  intros Hp Ht. unfold split_punct.
  rewrite strip_trailing_suffix by (try assumption; lia).
  rewrite app_nil_r. now apply strip_trailing_stop.
Qed.

Lemma split_punct_parts tok :
  fst (split_punct tok) ++ snd (split_punct tok) = tok
  /\ forallb ispunct (snd (split_punct tok)) = true
  /\ (fst (split_punct tok) = []
      \/ ispunct (back (fst (split_punct tok))) = false).
Proof.
  destruct (strip_trailing_spec (length tok) tok [] (le_n _) eq_refl)
    as (Happ & Hall & Hend).
  rewrite app_nil_r in Happ. now repeat split.
Qed.

End Punctuation.

(** X12. The stripping loop of [swapWords] cuts a token into its longest
    suffix of punctuation and the rest, and into nothing else: the two parts
    make up the token, the suffix is punctuation only, the rest is empty or
    ends in a character that is no punctuation, and a word so ended followed
    by punctuation is cut back into the two. *)
Theorem split_punct_spec :
  (forall tok : list ascii,
     fst (split_punct tok) ++ snd (split_punct tok) = tok
     /\ forallb ispunct (snd (split_punct tok)) = true
     /\ (fst (split_punct tok) = []
         \/ ispunct (back (fst (split_punct tok))) = false))
  /\ (forall t p : list ascii,
        forallb ispunct p = true ->
        t = [] \/ ispunct (back t) = false ->
        split_punct (t ++ p) = (t, p)).
Proof. split; [exact split_punct_parts | exact split_punct_unique]. Qed.

Lemma split_punct_spec_hello :
  forallb ispunct "!?" = true
  /\ (list_ascii_of_string "hello" = []
      \/ ispunct (back "hello") = false)
  /\ split_punct ("hello" ++ "!?")
     = (list_ascii_of_string "hello", list_ascii_of_string "!?").
Proof.
  split; [reflexivity|]. split; [right; reflexivity|].
  apply (proj2 split_punct_spec (list_ascii_of_string "hello")
               (list_ascii_of_string "!?"));
    [reflexivity | right; reflexivity].
Defined.

Section Swapping.

Variable lvl : CEFRLevel.

(** Every replacement of the table is a solid word. *)
Lemma table_values_solid :
  forallb (fun kv => solid_word (snd kv)) (map_to_list (wordMap lvl)) = true.
Proof. destruct lvl; vm_compute; reflexivity. Qed.

Lemma lookup_value_solid k v :
  wordMap lvl !! k = Some v ->
  v <> [] /\ no_space v = true /\ ispunct (back v) = false.
Proof.
  intros H. apply elem_of_map_to_list, list_elem_of_In in H.
  pose proof table_values_solid as Hall.
  rewrite forallb_forall in Hall. specialize (Hall (k, v) H).
  cbn [snd] in Hall. unfold solid_word in Hall.
  apply andb_true_iff in Hall as [Hall Hback].
  apply andb_true_iff in Hall as [Hne Hsp].
  apply negb_true_iff in Hne, Hback.
  apply bool_decide_eq_false in Hne. now repeat split.
Qed.

Lemma swap_step_token out tok :
  swap_step lvl out tok = out ++ (swap_token lvl tok ++ " ").
Proof.
  unfold swap_step, swap_token. destruct (split_punct tok) as [t p].
  now rewrite <- app_assoc.
Qed.

Lemma swap_fold ws : forall out,
  fold_left (swap_step lvl) ws out = out ++ render (map (swap_token lvl) ws).
Proof.
  induction ws as [|w ws IH]; intros out; cbn [fold_left map].
  - cbn. now rewrite app_nil_r.
  - rewrite swap_step_token, IH, render_cons. now rewrite <- !app_assoc.
Qed.

Lemma swapWords_join s :
  swapWords lvl s = join_words (map (swap_token lvl) (tokens s)).
Proof.
  unfold swapWords. rewrite swap_fold. cbn [app]. apply removelast_render.
Qed.

Lemma swap_token_split tok :
  split_punct (swap_token lvl tok)
  = (getSimplerWord lvl (fst (split_punct tok)), snd (split_punct tok)).
Proof.
  destruct (split_punct_parts tok) as (Happ & Hp & Hend).
  unfold swap_token. destruct (split_punct tok) as [t p]; cbn [fst snd] in *.
  apply split_punct_unique; [assumption|].
  unfold getSimplerWord.
  destruct (wordMap lvl !! lowercase t) as [v|] eqn:Hv; [|assumption].
  right. now apply (lookup_value_solid _ _ Hv).
Qed.

Lemma swap_token_idem tok :
  swap_token lvl (swap_token lvl tok) = swap_token lvl tok.
Proof.
  unfold swap_token at 1. rewrite swap_token_split.
  rewrite getSimplerWord_simple by apply getSimplerWord_result_simple.
  unfold swap_token. now destruct (split_punct tok).
Qed.

Lemma swap_token_word tok : is_word tok -> is_word (swap_token lvl tok).
Proof.
  intros [Hne Hsp]. destruct (split_punct_parts tok) as (Happ & _ & _).
  unfold swap_token. destruct (split_punct tok) as [t p]; cbn [fst snd] in *.
  subst tok. rewrite no_space_app in Hsp.
  apply andb_true_iff in Hsp as [Ht Hp].
  unfold getSimplerWord.
  destruct (wordMap lvl !! lowercase t) as [v|] eqn:Hv.
  - destruct (lookup_value_solid _ _ Hv) as (Hvne & Hvsp & _). split.
    + intros H. apply app_eq_nil in H as [H _]. contradiction.
    + now rewrite no_space_app, Hvsp, Hp.
  - split; [assumption|]. now rewrite no_space_app, Ht, Hp.
Qed.

Lemma swapWords_tokens s :
  tokens (swapWords lvl s) = map (swap_token lvl) (tokens s).
Proof.
  rewrite swapWords_join. apply tokens_join_words.
  induction (tokens_words s) as [|w ws Hw _ IH]; cbn [map]; constructor;
    [now apply swap_token_word | exact IH].
Qed.

End Swapping.

(** X13. [swapWords] rewrites token by token: its result is the tokens of
    the sentence, each with the word before its trailing punctuation
    replaced by [getSimplerWord] and the punctuation put back, joined by
    single spaces. The result tokenises into these very tokens, so no token
    is lost, added or merged, and a sentence without token gives the empty
    string. *)
Theorem swapWords_tokenwise (lvl : CEFRLevel) (s : list ascii) :
  swapWords lvl s = join_words (map (swap_token lvl) (tokens s))
  /\ tokens (swapWords lvl s) = map (swap_token lvl) (tokens s)
  /\ length (tokens (swapWords lvl s)) = length (tokens s)
  /\ (tokens s = [] -> swapWords lvl s = []).
Proof.
  split; [apply swapWords_join|]. split; [apply swapWords_tokens|]. split.
  - now rewrite swapWords_tokens, length_map.
  - intros H. now rewrite swapWords_join, H.
Qed.

(** X14. A swapped token keeps its trailing punctuation, and its word is the
    replacement; the replacement being a simple word, swapping the words of
    a sentence twice gives what swapping them once gives. *)
Theorem swapWords_idempotent (lvl : CEFRLevel) :
  (forall tok : list ascii,
     split_punct (swap_token lvl tok)
     = (getSimplerWord lvl (fst (split_punct tok)), snd (split_punct tok)))
  /\ (forall s : list ascii,
        swapWords lvl (swapWords lvl s) = swapWords lvl s).
Proof.
  split; [apply swap_token_split|].
  intros s. rewrite (swapWords_join lvl (swapWords lvl s)).
  rewrite swapWords_tokens, map_map, swapWords_join. f_equal.
  apply map_ext. intros tok. apply swap_token_idem.
Qed.

Lemma trySplit_concat_tokens lvl s :
  tokens (concat (trySplit lvl s)) = tokens s.
Proof.
  destruct (Z.le_gt_cases (Z.of_nat (length (tokens s))) (limit_of lvl))
    as [Hle | Hgt].
  - unfold trySplit. apply Z.leb_le in Hle. rewrite Hle.
    cbn. now rewrite app_nil_r.
  - destruct (trySplit_groups lvl s Hgt) as (groups & rest & -> & Hc & _).
    rewrite concat_render, concat_trailing, Hc.
    rewrite <- (app_nil_r (render (tokens s))).
    rewrite tokens_render by apply tokens_words.
    apply app_nil_r.
Qed.

(** X15. The chunks that [rewrite] returns for a sentence, put together,
    tokenise into the swapped tokens of the sentence without its
    parenthesised spans, in order: past [stripParens], rewriting loses no
    word, adds none and reorders none, whatever the splitting does. *)
Theorem rewrite_tokens (lvl : CEFRLevel) (s : list ascii) :
  tokens (concat (SentenceRewriter.rewrite lvl s))
  = map (swap_token lvl) (tokens (stripParens lvl s)).
Proof.
  unfold SentenceRewriter.rewrite, fixPassive.
  now rewrite trySplit_concat_tokens, swapWords_tokens.
Qed.

(** X16. Without a conjunction there is no cut: a sentence over the limit
    none of whose tokens lowercases to "and", "but" or "because" comes back
    as one chunk, its tokens each followed by a space, however long it is. *)
Theorem trySplit_no_conjunction (lvl : CEFRLevel) (s : list ascii)
    (Hover : limit_of lvl < Z.of_nat (length (tokens s)))
    (Hplain : forallb (fun w => negb (is_conjunction (lowercase w)))
                      (tokens s) = true) :
  trySplit lvl s = [render (tokens s)].
Proof.
  unfold trySplit. apply Z.leb_gt in Hover as Hleb. rewrite Hleb.
  rewrite chunk_fold_plain.
  - cbn [app]. destruct (tokens s) as [|w ws] eqn:Htok; [cbn in Hover; destruct lvl; cbn in Hover; lia|].
    rewrite render_cons.
    destruct (w ++ " " ++ render ws) eqn:Heq; [|reflexivity].
    apply app_eq_nil in Heq as [_ Heq]. discriminate.
  - apply List.Forall_forall. intros w Hw.
    rewrite forallb_forall in Hplain. specialize (Hplain w Hw).
    now apply negb_true_iff in Hplain.
Qed.

Lemma trySplit_no_conjunction_long :
  limit_of A1 < Z.of_nat (length (tokens "a b c d e f g h i j k l"))
  /\ forallb (fun w => negb (is_conjunction (lowercase w)))
             (tokens "a b c d e f g h i j k l") = true
  /\ trySplit A1 "a b c d e f g h i j k l"
     = [render (tokens "a b c d e f g h i j k l")].
Proof.
  split; [reflexivity|]. split; [reflexivity|].
  apply (trySplit_no_conjunction A1
           (list_ascii_of_string "a b c d e f g h i j k l"));
    reflexivity.
Defined.

(** ** Counting words and syllables *)

Section Counting.

Lemma syllable_sum_app a b :
  syllable_sum (a ++ b) = syllable_sum a + syllable_sum b.
Proof.
  unfold syllable_sum. induction a as [|w a IH]; cbn; [reflexivity|].
  cbn in IH. rewrite IH. lia.
Qed.

Lemma syllable_sum_ge ws : Z.of_nat (length ws) <= syllable_sum ws.
Proof.
  unfold syllable_sum. induction ws as [|w ws IH]; cbn [map fold_right length].
  - reflexivity.
  - assert (1 <= countSyllables w) by (unfold countSyllables; lia). lia.
Qed.

Lemma word_fold toks : forall wc ts,
  fold_left word_step toks (wc, ts)
  = (wc + Z.of_nat (length
            (List.filter (fun w => negb (bool_decide (w = [])))
                         (map (List.filter isalpha) toks))),
     ts + syllable_sum
            (List.filter (fun w => negb (bool_decide (w = [])))
                         (map (List.filter isalpha) toks))).
Proof.
  induction toks as [|tok toks IH]; intros wc ts;
    cbn [fold_left map List.filter].
  - cbn. f_equal; lia.
  - unfold word_step at 2.
    destruct (List.filter isalpha tok) as [|c w] eqn:Hf; rewrite IH.
    + reflexivity.
    + rewrite (bool_decide_eq_false_2 (c :: w = [])) by discriminate.
      cbn [negb]. unfold syllable_sum. cbn [map fold_right length].
      f_equal; lia.
Qed.

Lemma sentence_fold ss : forall tw ts,
  fold_left sentence_step ss (tw, ts)
  = (tw + Z.of_nat (length (concat (map alpha_words ss))),
     ts + syllable_sum (concat (map alpha_words ss))).
Proof.
  induction ss as [|sent ss IH]; intros tw ts; cbn [fold_left map concat].
  - cbn. f_equal; lia.
  - unfold sentence_step at 2. rewrite word_fold, IH.
    fold (alpha_words sent).
    rewrite length_app, syllable_sum_app. f_equal; lia.
Qed.

End Counting.

(** X17. On a text with a terminator, [analyze] counts as words the tokens
    of its sentences that hold at least one letter, and as syllables those
    of the letters of each; the first average is words over sentences, the
    second syllables over words, or 0 when there is no word. There are
    never fewer syllables than words. *)
Theorem analyze_counts (text : list ascii)
    (Hterm : existsb is_terminator text = true) :
  let ws := concat (map alpha_words (segment text)) in
  let nw := Z.of_nat (length ws) in
  avgWordsPerSentence (analyze text)
  = (to_double nw / to_double (Z.of_nat (length (segment text))))%float
  /\ avgSyllablesPerWord (analyze text)
     = (if 0 <? nw
        then (to_double (syllable_sum ws) / to_double nw)%float
        else 0%float)
  /\ nw <= syllable_sum ws.
Proof.
  cbv zeta. apply segment_nonempty in Hterm.
  split; [|split; [|apply syllable_sum_ge]]; unfold analyze;
    destruct (segment text) as [|s ss]; try contradiction;
    rewrite sentence_fold; reflexivity.
Qed.

Lemma analyze_counts_cat :
  existsb is_terminator "The cat sat, 42 times!" = true
  /\ concat (map alpha_words (segment "The cat sat, 42 times!"))
     = ["The" : list ascii; "cat" : list ascii; "sat" : list ascii;
        "times" : list ascii]
  /\ avgWordsPerSentence (analyze "The cat sat, 42 times!") = 4%float
  /\ avgSyllablesPerWord (analyze "The cat sat, 42 times!") = 1.25%float.
Proof.
  split; [reflexivity|]. split; [reflexivity|].
  destruct (analyze_counts (list_ascii_of_string "The cat sat, 42 times!")
                           eq_refl) as (H1 & H2 & _).
  split; [rewrite H1 | rewrite H2]; reflexivity.
Defined.

(** ** Syllables *)

Section SyllableBounds.

Lemma tolower_toupper c : tolower (toupper c) = tolower c.
Proof. destruct c as [[] [] [] [] [] [] [] []]; reflexivity. Qed.

Lemma tolower_tolower c : tolower (tolower c) = tolower c.
Proof. destruct c as [[] [] [] [] [] [] [] []]; reflexivity. Qed.

Lemma starts_after_vowels w : forall prev,
  (starts_after prev w <= length (List.filter is_vowel w))%nat.
Proof.
  induction w as [|c r IH]; intros prev; [reflexivity|].
  cbn [starts_after List.filter]. specialize (IH (is_vowel c)).
  destruct (is_vowel c); cbn [andb length]; [destruct prev; cbn; lia | lia].
Qed.

Lemma filter_none {A} (f : A -> bool) l :
  forallb (fun x => negb (f x)) l = true -> List.filter f l = [].
Proof.
  induction l as [|x l IH]; [reflexivity|]. cbn. intros H.
  apply andb_true_iff in H as [Hx Hl]. apply negb_true_iff in Hx.
  rewrite Hx. now apply IH.
Qed.

Lemma countSyllables_upper w :
  countSyllables w
  <= Z.max 1 (Z.of_nat (length (List.filter is_vowel (lowercase w)))).
Proof.
  unfold countSyllables. rewrite syllable_scan.
  pose proof (starts_after_vowels (lowercase w) false).
  destruct ((2 <? Z.of_nat (length (lowercase w)))
            && Ascii.eqb (back (lowercase w)) "e"); lia.
Qed.

End SyllableBounds.

(** X18. [countSyllables] never counts more syllables than the word has
    vowel letters (or 1): a word without vowel, the empty word too, counts
    1. The count does not depend on the casing of the word. *)
Theorem countSyllables_bounds (w : list ascii) :
  1 <= countSyllables w
       <= Z.max 1 (Z.of_nat (length (List.filter is_vowel (lowercase w))))
  /\ (forallb (fun c => negb (is_vowel c)) (lowercase w) = true ->
      countSyllables w = 1)
  /\ countSyllables (lowercase w) = countSyllables w
  /\ countSyllables (map toupper w) = countSyllables w.
Proof.
  pose proof (countSyllables_upper w) as Hup.
  assert (Hlow : 1 <= countSyllables w) by (unfold countSyllables; lia).
  split; [split; assumption|]. split; [|split].
  - intros H. rewrite (filter_none _ _ H) in Hup. cbn in Hup. lia.
  - unfold countSyllables, lowercase. rewrite map_map.
    now rewrite (map_ext _ _ tolower_tolower).
  - unfold countSyllables, lowercase. rewrite map_map.
    now rewrite (map_ext _ _ tolower_toupper).
Qed.

(** ** Analysing the simplified text *)

Lemma analyze_level_determined text :
  existsb is_terminator text = true -> 1 <= cefrEstimate (analyze text) <= 6.
Proof.
  intros H. apply segment_nonempty in H. unfold analyze.
  destruct (segment text) as [|s ss]; [contradiction|].
  destruct (fold_left sentence_step (s :: ss) (0, 0)) as [tw ts].
  cbn [cefrEstimate]. apply cefr_of_score_range.
Qed.

Lemma rejoin_has_terminator parts :
  rejoin parts <> [] -> existsb is_terminator (rejoin parts) = true.
Proof.
  intros H. destruct (proj2 (rejoin_ends parts) H) as (body & t & -> & Ht).
  rewrite existsb_app. cbn. rewrite Ht. apply orb_true_r.
Qed.

(** X19. A text with a terminator always gets a level from 1 to 6, and so
    does every simplified text that is not empty, because [rejoin] closes
    each chunk with a terminator: the metrics of a simplified article are
    never the undetermined default. *)
Theorem simplified_level :
  (forall text : list ascii,
     existsb is_terminator text = true ->
     1 <= cefrEstimate (analyze text) <= 6)
  /\ (forall (lvl : CEFRLevel) (text : list ascii),
        simplified (run lvl text) <> [] ->
        existsb is_terminator (simplified (run lvl text)) = true
        /\ 1 <= cefrEstimate (analyze (simplified (run lvl text))) <= 6).
Proof.
  split; [exact analyze_level_determined|].
  intros lvl text H.
  assert (Hterm : existsb is_terminator (simplified (run lvl text)) = true).
  { unfold run in *. cbn [simplified] in *. now apply rejoin_has_terminator. }
  split; [assumption | now apply analyze_level_determined].
Qed.

Lemma simplified_level_unterminated :
  simplified (run A1 "no end in sight") <> []
  /\ existsb is_terminator (simplified (run A1 "no end in sight")) = true
  /\ 1 <= cefrEstimate (analyze (simplified (run A1 "no end in sight"))) <= 6.
Proof.
  assert (H : simplified (run A1 "no end in sight") <> [])
    by (vm_compute; discriminate).
  split; [exact H|].
  exact (proj2 simplified_level A1
               (list_ascii_of_string "no end in sight") H).
Defined.

(** ** The progress callback *)

Section Progress.

Variable lvl : CEFRLevel.
Variable total : Z.

Lemma run_step_fold post : forall pre result calls,
  fold_left (run_step lvl (pre ++ post) total)
            (seq (length pre) (length post)) (result, calls)
  = (result ++ concat (map (SentenceRewriter.rewrite lvl) post),
     calls ++ map (fun i => (Z.of_nat i + 1, total))
                  (seq (length pre) (length post))).
Proof.
  induction post as [|s post IH]; intros pre result calls;
    cbn [length seq fold_left map concat].
  - now rewrite !app_nil_r.
  - unfold run_step at 2.
    rewrite nth_middle.
    replace (pre ++ s :: post) with ((pre ++ [s]) ++ post)
      by now rewrite <- app_assoc.
    replace (S (length pre)) with (length (pre ++ [s]))
      by (rewrite length_app; cbn; lia).
    rewrite IH. now rewrite <- !app_assoc.
Qed.

End Progress.

Lemma splitSentences_concat text : concat (splitSentences text) = text.
Proof.
  rewrite splitSentences_scan, concat_trailing.
  apply (scan_sentences_spec text [] eq_refl).
Qed.

(** X20. With a callback set, [run] returns the same article as without,
    and calls the callback once per sentence of [splitSentences] (not per
    chunk), in order, with the running count first and the number of
    sentences second: (1, n), (2, n), ... up to (n, n). On the empty text
    it is never called. *)
Theorem run_progress (lvl : CEFRLevel) (text : list ascii) :
  fst (run_notifying lvl text) = run lvl text
  /\ snd (run_notifying lvl text)
     = map (fun i => (Z.of_nat i + 1,
                      Z.of_nat (length (splitSentences text))))
           (seq 0 (length (splitSentences text)))
  /\ length (snd (run_notifying lvl text)) = length (splitSentences text)
  /\ (snd (run_notifying lvl text) = [] <-> text = []).
Proof.
  unfold run_notifying.
  pose proof (run_step_fold lvl (Z.of_nat (length (splitSentences text)))
                (splitSentences text) [] [] []) as H.
  cbn [app length] in H. rewrite H. cbn [fst snd].
  split; [|split; [reflexivity|split]].
  - unfold run. now rewrite run_fold.
  - now rewrite length_map, length_seq.
  - pose proof (splitSentences_concat text) as Hcat.
    destruct (splitSentences text) as [|s ss] eqn:Hs.
    + cbn in Hcat. now subst.
    + split; [discriminate|]. intros ->. cbn in Hs. discriminate.
Qed.

(** ** The console shell *)

Import CLI.

(** X21. [showMetrics] never reads outside its array of labels, whatever
    the estimate: estimates 1 to 6 are labelled A1, A2, B1, B2, C1, C2 and
    every other integer "?". The metrics of a text with a terminator are
    never labelled "?". *)
Theorem showMetrics_label :
  (forall m : Metrics,
     0 <= label_index (cefrEstimate m) <= 6
     /\ exists l, level_label m = Some l /\ In l labels)
  /\ (forall m : Metrics,
        1 <= cefrEstimate m <= 6 ->
        level_label m
        = nth_error ["A1"; "A2"; "B1"; "B2"; "C1"; "C2"]
                    (Z.to_nat (cefrEstimate m - 1)))
  /\ (forall m : Metrics,
        level_label m = Some "?" <-> ~ (1 <= cefrEstimate m <= 6))
  /\ (forall text : list ascii,
        existsb is_terminator text = true ->
        level_label (analyze text) <> Some "?").
Proof.
  assert (Hrange : forall m : Metrics,
             1 <= cefrEstimate m <= 6 ->
             level_label m
             = nth_error ["A1"; "A2"; "B1"; "B2"; "C1"; "C2"]
                         (Z.to_nat (cefrEstimate m - 1))
             /\ level_label m <> Some "?").
  { intros m H. unfold level_label, label_index.
    destruct (Z.leb_spec 1 (cefrEstimate m)); [|lia].
    destruct (Z.leb_spec (cefrEstimate m) 6); [|lia]. cbn [andb].
    assert (Hc : cefrEstimate m = 1 \/ cefrEstimate m = 2
                 \/ cefrEstimate m = 3 \/ cefrEstimate m = 4
                 \/ cefrEstimate m = 5 \/ cefrEstimate m = 6) by lia.
    destruct Hc as [-> | [-> | [-> | [-> | [-> | ->]]]]];
      split; (reflexivity || discriminate). }
  assert (Hother : forall m : Metrics,
             ~ (1 <= cefrEstimate m <= 6) -> level_label m = Some "?").
  { intros m H. unfold level_label, label_index.
    destruct (Z.leb_spec 1 (cefrEstimate m));
      destruct (Z.leb_spec (cefrEstimate m) 6); try reflexivity. lia. }
  split; [|split; [|split]].
  - intros m. split.
    + unfold label_index.
      destruct (Z.leb_spec 1 (cefrEstimate m));
        destruct (Z.leb_spec (cefrEstimate m) 6); cbn [andb]; lia.
    + destruct (Z.le_gt_cases 1 (cefrEstimate m)) as [H1 | H1];
        [destruct (Z.le_gt_cases (cefrEstimate m) 6) as [H6 | H6]|].
      * destruct (Hrange m (conj H1 H6)) as [Heq _]. rewrite Heq.
        assert (Hc : cefrEstimate m = 1 \/ cefrEstimate m = 2
                     \/ cefrEstimate m = 3 \/ cefrEstimate m = 4
                     \/ cefrEstimate m = 5 \/ cefrEstimate m = 6) by lia.
        destruct Hc as [-> | [-> | [-> | [-> | [-> | ->]]]]];
          eexists; (split; [reflexivity | cbn; tauto]).
      * exists "?"%string. split; [apply Hother; lia | now left].
      * exists "?"%string. split; [apply Hother; lia | now left].
  - intros m H. apply (Hrange m H).
  - intros m. split.
    + intros Hq Hr. now apply (Hrange m Hr).
    + apply Hother.
  - intros text H. apply Hrange. now apply analyze_level_determined.
Qed.

Section Article.

Lemma read_line_line l rest :
  forallb (fun c => negb (Ascii.eqb c newline)) l = true ->
  read_line (l ++ newline :: rest) = (l, rest).
Proof.
  induction l as [|c l IH]; intros H; cbn [app read_line].
  - reflexivity.
  - cbn in H. apply andb_true_iff in H as [Hc Hl].
    apply negb_true_iff in Hc. rewrite Hc. now rewrite IH.
Qed.

Lemma read_line_last l :
  forallb (fun c => negb (Ascii.eqb c newline)) l = true ->
  read_line l = (l, []).
Proof.
  induction l as [|c l IH]; intros H; cbn [read_line]; [reflexivity|].
  cbn in H. apply andb_true_iff in H as [Hc Hl].
  apply negb_true_iff in Hc. rewrite Hc. now rewrite IH.
Qed.

Lemma getline_line l rest :
  forallb (fun c => negb (Ascii.eqb c newline)) l = true ->
  getline (l ++ newline :: rest) = Some (l, rest).
Proof.
  intros H. unfold getline. rewrite read_line_line by assumption.
  now destruct l.
Qed.

Lemma ends_with_lines lines tail added rest :
  Forall article_line lines ->
  ends_with tail added rest ->
  ends_with (unlines lines ++ tail) (unlines lines ++ added) rest.
Proof.
  intros Hlines Htail.
  induction Hlines as [|l lines [Hl Hne] _ IH]; [exact Htail|].
  intros fuel article Hlen.
  unfold unlines in *. cbn [map concat] in *.
  rewrite <- !app_assoc in *. cbn [app] in *.
  rewrite !length_app in Hlen. cbn [length] in Hlen.
  destruct fuel as [|fuel]; [lia|].
  cbn [getArticle_loop]. rewrite getline_line by assumption.
  unfold str_eqb. rewrite bool_decide_eq_false_2 by assumption.
  rewrite IH by lia.
  now rewrite <- !app_assoc.
Qed.

Lemma ends_with_marker rest :
  ends_with ("END" ++ newline :: rest) [] rest.
Proof.
  intros fuel article Hlen. destruct fuel as [|fuel]; [cbn in Hlen; lia|].
  cbn [getArticle_loop]. rewrite (getline_line "END") by reflexivity.
  cbn. now rewrite app_nil_r.
Qed.

Lemma ends_with_eof : ends_with [] [] [].
Proof.
  intros fuel article _. rewrite app_nil_r. now destruct fuel.
Qed.

Lemma ends_with_open l :
  l <> [] -> article_line l -> ends_with l (l ++ [newline]) [].
Proof.
  intros Hne [Hl Hend] fuel article Hlen.
  destruct fuel as [|fuel]; [destruct l; [contradiction | cbn in Hlen; lia]|].
  cbn [getArticle_loop]. unfold getline.
  rewrite read_line_last by assumption.
  destruct l as [|c l]; [contradiction|].
  unfold str_eqb. rewrite bool_decide_eq_false_2 by assumption.
  now destruct fuel.
Qed.

Lemma ends_with_marker_eof : ends_with "END" [] [].
Proof.
  intros fuel article Hlen. destruct fuel as [|fuel]; [cbn in Hlen; lia|].
  cbn. now rewrite app_nil_r.
Qed.

End Article.

(** X22. [getArticle] returns the lines that come before the first line
    END, each closed by a newline, and leaves what follows that line unread.
    Without such a line it reads to the end of the input: whole lines come
    back as they are, a last line without newline gets one, and a last line
    END without newline ends the article like any END line. *)
Theorem getArticle_lines (lines : list (list ascii))
    (Hlines : Forall article_line lines) :
  (forall rest,
     getArticle (unlines lines ++ "END" ++ newline :: rest)
     = (unlines lines, rest))
  /\ getArticle (unlines lines) = (unlines lines, [])
  /\ getArticle (unlines lines ++ "END") = (unlines lines, [])
  /\ (forall l, l <> [] -> article_line l ->
        getArticle (unlines lines ++ l)
        = (unlines lines ++ l ++ [newline], [])).
Proof.
  unfold getArticle. repeat split.
  - intros rest.
    rewrite (ends_with_lines lines _ _ _ Hlines (ends_with_marker rest))
      by reflexivity.
    now rewrite app_nil_r.
  - rewrite <- (app_nil_r (unlines lines)) at 1 2.
    rewrite (ends_with_lines lines _ _ _ Hlines ends_with_eof)
      by reflexivity.
    now rewrite app_nil_r.
  - rewrite (ends_with_lines lines _ _ _ Hlines ends_with_marker_eof)
      by reflexivity.
    now rewrite app_nil_r.
  - intros l Hne Hl.
    now rewrite (ends_with_lines lines _ _ _ Hlines (ends_with_open l Hne Hl))
      by reflexivity.
Qed.

Lemma getArticle_lines_two :
  Forall article_line ["The cat sat." : list ascii; [] : list ascii]
  /\ getArticle (unlines ["The cat sat." : list ascii; [] : list ascii]
                 ++ "END" ++ newline :: "1")
     = (unlines ["The cat sat." : list ascii; [] : list ascii],
        list_ascii_of_string "1").
Proof.
  assert (H : Forall article_line
                ["The cat sat." : list ascii; [] : list ascii])
    by (repeat constructor; discriminate).
  split; [exact H|].
  apply (proj1 (getArticle_lines _ H)).
Defined.

(** ** More on segmentation and reassembly *)

Section Fragments.

Lemma segment_step_plain_fold tail : forall ss cur,
  no_terminator tail = true ->
  fst (fold_left segment_step tail (ss, cur)) = ss.
Proof.
  intros ss cur H. rewrite segment_fold. cbn [fst].
  rewrite scan_sentences_none by assumption. apply app_nil_r.
Qed.

Lemma segment_app_tail text tail :
  no_terminator tail = true -> segment (text ++ tail) = segment text.
Proof.
  intros H. unfold segment. rewrite fold_left_app.
  destruct (fold_left segment_step text ([], [])) as [ss cur].
  now apply segment_step_plain_fold.
Qed.

Lemma scan_sentences_body body : forall cur r,
  no_terminator body = true ->
  scan_sentences cur (body ++ r) = scan_sentences (cur ++ body) r.
Proof.
  induction body as [|c body IH]; intros cur r H; cbn [app].
  - now rewrite app_nil_r.
  - cbn in H. apply andb_true_iff in H as [Hc Hb].
    apply negb_true_iff in Hc. cbn [scan_sentences]. rewrite Hc.
    rewrite IH by assumption. now rewrite <- app_assoc.
Qed.

Lemma splitSentences_closed s :
  closed_sentence s -> splitSentences s = [s].
Proof.
  intros (body & t & -> & Hb & Ht). rewrite splitSentences_scan.
  rewrite scan_sentences_body by assumption. cbn. now rewrite Ht.
Qed.

Lemma splitSentences_fragment s :
  s <> [] -> no_terminator s = true -> splitSentences s = [s].
Proof.
  intros Hne H. rewrite splitSentences_scan.
  rewrite <- (app_nil_r s) at 1 2.
  rewrite scan_sentences_body by assumption. cbn. now destruct s.
Qed.

Lemma blank_isspace c :
  existsb (Ascii.eqb c) blanks = true -> isspace c = true.
Proof.
  intros H. apply existsb_exists in H as (y & Hy & Heq).
  apply Ascii.eqb_eq in Heq. subst y. cbn in Hy.
  destruct Hy as [<- | [<- | [<- | []]]]; reflexivity.
Qed.

Lemma render_shape g :
  g <> [] -> Forall is_word g ->
  exists c r, render g = c :: r ++ [" "%char] /\ isspace c = false.
Proof.
  intros Hne Hall.
  assert (Hend : exists l, render g = l ++ [" "%char]).
  { destruct (exists_last Hne) as (g0 & x & ->).
    rewrite <- render_snoc. exists (render g0 ++ x).
    now rewrite <- app_assoc. }
  destruct Hend as [l Hl].
  destruct g as [|w g]; [contradiction|].
  inversion Hall as [|? ? [Hw Hsp] _]; subst.
  destruct w as [|c w]; [contradiction|].
  cbn in Hsp. apply andb_true_iff in Hsp as [Hc _].
  apply negb_true_iff in Hc.
  rewrite render_cons in *. cbn [app] in *.
  destruct l as [|c' l]; cbn [app] in Hl.
  - injection Hl as -> _. discriminate.
  - injection Hl as <- Hl. exists c, l.
    split; [f_equal; exact Hl | assumption].
Qed.

Lemma rejoin_step_chunk c r :
  isspace c = false ->
  rejoin_step [] (c :: r ++ [" "%char]) = toupper c :: r ++ " . ".
Proof.
  intros Hc. unfold rejoin_step. cbn [find_first_not_of].
  destruct (existsb (Ascii.eqb c) blanks) eqn:Hb;
    [apply blank_isspace in Hb; congruence|].
  cbn [skipn].
  change (toupper c :: r ++ [" "%char]) with ((toupper c :: r) ++ [" "%char]).
  rewrite back_snoc. cbn. now rewrite <- !app_assoc.
Qed.

End Fragments.

(** X23. [analyze] does not see what follows the last terminator: a text
    followed by terminator-free text has the sentences, and so the metrics,
    of the text alone. *)
Theorem analyze_ignores_tail (text tail : list ascii)
    (Htail : no_terminator tail = true) :
  segment (text ++ tail) = segment text
  /\ analyze (text ++ tail) = analyze text.
Proof.
  assert (H : segment (text ++ tail) = segment text)
    by now apply segment_app_tail.
  split; [exact H|]. unfold analyze. now rewrite H.
Qed.

Lemma analyze_ignores_tail_hi :
  no_terminator " and then some more words" = true
  /\ segment ("Hi there." ++ " and then some more words")
     = segment "Hi there."
  /\ analyze ("Hi there." ++ " and then some more words")
     = analyze "Hi there.".
Proof.
  split; [reflexivity|].
  apply (analyze_ignores_tail (list_ascii_of_string "Hi there.")
           (list_ascii_of_string " and then some more words")).
  reflexivity.
Defined.

(** X24. Every chunk of a sentence over the limit ends in the space that
    [trySplit] writes after each word, so [rejoin] never finds a terminator
    at its end: the chunk comes out capitalised and closed by " . ", also
    when its last word ends in a terminator already. *)
Theorem trySplit_rejoin (lvl : CEFRLevel) (s : list ascii)
    (Hover : limit_of lvl < Z.of_nat (length (tokens s))) :
  Forall (fun chunk =>
            exists c r,
              chunk = c :: r ++ [" "%char]
              /\ isspace c = false
              /\ rejoin [chunk] = capitalise chunk ++ ". ")
         (trySplit lvl s).
Proof.
  destruct (trySplit_groups lvl s Hover) as (groups & rest & -> & Hc & Hcl & _).
  assert (Hwords : Forall is_word (concat groups ++ rest))
    by (rewrite Hc; apply tokens_words).
  apply Forall_app in Hwords as [Hgw Hrw].
  assert (Hshape : forall g, g <> [] -> Forall is_word g ->
            exists c r, render g = c :: r ++ [" "%char]
                        /\ isspace c = false
                        /\ rejoin [render g] = capitalise (render g) ++ ". ").
  { intros g Hne Hg. destruct (render_shape g Hne Hg) as (c & r & Heq & Hsp).
    exists c, r. rewrite Heq. repeat split; try assumption.
    change (rejoin [c :: r ++ [" "%char]])
      with (rejoin_step [] (c :: r ++ [" "%char])).
    rewrite rejoin_step_chunk by assumption. cbn [capitalise app].
    now rewrite <- app_assoc. }
  rewrite map_app. apply Forall_app. split.
  - clear Hc. induction groups as [|g groups IH]; [constructor|].
    cbn [concat] in Hgw. apply Forall_app in Hgw as [Hg Hgs].
    inversion Hcl as [|? ? (g0 & w & Hgeq & _) Hcl']; subst.
    cbn [map]. constructor; [|now apply IH].
    apply Hshape; [now destruct g0 | assumption].
  - destruct rest as [|w rest]; [constructor|]. cbn [trailing map].
    constructor; [|constructor]. now apply Hshape.
Qed.

Lemma trySplit_rejoin_long :
  limit_of A1
  < Z.of_nat (length (tokens "we ran and ran because it was far and we were late."))
  /\ trySplit A1 "we ran and ran because it was far and we were late."
     = ["we ran and ran because " : list ascii;
        "it was far and we were late. " : list ascii]
  /\ rejoin (trySplit A1 "we ran and ran because it was far and we were late.")
     = "We ran and ran because . It was far and we were late. . "
  /\ Forall (fun chunk =>
               exists c r,
                 chunk = c :: r ++ [" "%char]
                 /\ isspace c = false
                 /\ rejoin [chunk] = capitalise chunk ++ ". ")
            (trySplit A1 "we ran and ran because it was far and we were late.").
Proof.
  split; [reflexivity|]. split; [vm_compute; reflexivity|].
  split; [vm_compute; reflexivity|].
  apply (trySplit_rejoin A1
           (list_ascii_of_string
              "we ran and ran because it was far and we were late.")).
  reflexivity.
Defined.

(** X25. No sentence of [splitSentences] is empty, and a terminator occurs
    in a sentence only as its last character; so segmenting a sentence
    again gives the sentence alone. *)
Theorem splitSentences_sentences (text : list ascii) :
  Forall (fun s =>
            s <> []
            /\ no_terminator (removelast s) = true
            /\ splitSentences s = [s])
         (splitSentences text).
Proof.
  destruct (scan_sentences_spec text [] eq_refl) as (_ & Hall & Htail).
  rewrite splitSentences_scan. apply Forall_app. split.
  - eapply List.Forall_impl; [|exact Hall].
    intros s Hs. pose proof (splitSentences_closed s Hs) as Hsplit.
    destruct Hs as (body & t & -> & Hb & Ht).
    repeat split; [now destruct body | now rewrite removelast_last | exact Hsplit].
  - destruct (snd (scan_sentences [] text)) as [|c r] eqn:Hs;
      [constructor|].
    cbn [trailing]. constructor; [|constructor].
    repeat split; [discriminate | | now apply splitSentences_fragment].
    rewrite (list_back_split (c :: r)) in Htail by discriminate.
    rewrite no_terminator_app in Htail.
    now apply andb_true_iff in Htail as [Htail _].
Qed.
